(** * BayesFlow: flow matching, the equivariant deep-set module and the
      evidential log-loss, embedded over the reals.

    Tensors of floating-point numbers are modelled with exact real
    arithmetic ([R] of the Standard Library).  Where a claim is about the
    IEEE special values (the log-loss), the scalars are [fval]: a real, one
    of the two infinities, or NaN.  Keras and TensorFlow primitives are
    written out on lists; the parts of the repository that are not among the
    sources (the integrators, the invariant module, the utilities) are
    section variables or are modelled from the specification, each marked
    so.  The losses on real tensors of sbi/losses.py and bayesflow/losses.py
    and the maximum mean discrepancy follow the network; for the latter a
    tensor is its shape and its entries by index, so that transposition,
    broadcasting and reshaping are the operations of TensorFlow. *)

From Stdlib Require Import Reals Lra Lia ZArith.
From Stdlib Require SpecFloat.
From stdpp Require Import gmap strings list option.

(* ================================================================== *)
(** * Scalars with IEEE special values *)
(* ================================================================== *)

Module Float.

Local Open Scope R_scope.

(** A float32/float64 value without rounding: the finite values are the
    reals, the special values are kept.  Signed zeros are not
    distinguished. *)
Inductive fval : Type :=
| Fin (r : R)
| PInf
| NInf
| NaN.

Definition is_finite (x : fval) : Prop :=
  match x with Fin _ => True | _ => False end.

Definition fneg (x : fval) : fval :=
  match x with
  | Fin r => Fin (- r)
  | PInf => NInf
  | NInf => PInf
  | NaN => NaN
  end.

Definition fadd (x y : fval) : fval :=
  match x, y with
  | NaN, _ | _, NaN => NaN
  | Fin a, Fin b => Fin (a + b)
  | PInf, NInf | NInf, PInf => NaN
  | PInf, _ | _, PInf => PInf
  | NInf, _ | _, NInf => NInf
  end.

Definition fsub (x y : fval) : fval := fadd x (fneg y).

(** The infinity with the sign of [a], NaN when [a] is zero. *)
Definition inf_signed (a : R) (pos neg : fval) : fval :=
  if Rlt_dec 0 a then pos else if Rlt_dec a 0 then neg else NaN.

Definition fmul (x y : fval) : fval :=
  match x, y with
  | NaN, _ | _, NaN => NaN
  | Fin a, Fin b => Fin (a * b)
  | Fin a, PInf | PInf, Fin a => inf_signed a PInf NInf
  | Fin a, NInf | NInf, Fin a => inf_signed a NInf PInf
  | PInf, PInf | NInf, NInf => PInf
  | PInf, NInf | NInf, PInf => NInf
  end.

(** Division never raises: [a / 0] is an infinity for [a <> 0] and NaN for
    [0 / 0]. *)
Definition fdiv (x y : fval) : fval :=
  match x, y with
  | NaN, _ | _, NaN => NaN
  | Fin a, Fin b =>
      if Req_dec_T b 0 then inf_signed a PInf NInf else Fin (a / b)
  | Fin _, (PInf | NInf) => Fin 0
  | (PInf | NInf), (PInf | NInf) => NaN
  | PInf, Fin b => if Rlt_dec b 0 then NInf else PInf
  | NInf, Fin b => if Rlt_dec b 0 then PInf else NInf
  end.

(** [tf.math.log]. *)
Definition flog (x : fval) : fval :=
  match x with
  | Fin r => if Rlt_dec 0 r then Fin (ln r)
             else if Rlt_dec r 0 then NaN else NInf
  | PInf => PInf
  | NInf => NaN
  | NaN => NaN
  end.

(** [tf.minimum] and [tf.maximum]: NaN in, NaN out. *)
Definition fminimum (x y : fval) : fval :=
  match x, y with
  | NaN, _ | _, NaN => NaN
  | NInf, _ | _, NInf => NInf
  | PInf, z | z, PInf => z
  | Fin a, Fin b => Fin (Rmin a b)
  end.

Definition fmaximum (x y : fval) : fval :=
  match x, y with
  | NaN, _ | _, NaN => NaN
  | PInf, _ | _, PInf => PInf
  | NInf, z | z, NInf => z
  | Fin a, Fin b => Fin (Rmax a b)
  end.

(** [tf.clip_by_value t lo hi = maximum (minimum t hi) lo]. *)
Definition clip_by_value (t lo hi : fval) : fval :=
  fmaximum (fminimum t hi) lo.

(** [tf.reduce_sum] along one axis. *)
Definition reduce_sum (row : list fval) : fval := foldr fadd (Fin 0) row.

(** [tf.reduce_mean] of a vector: the sum over the count, [0 / 0] on the
    empty vector. *)
Definition reduce_mean (v : list fval) : fval :=
  fdiv (reduce_sum v) (Fin (INR (length v))).

End Float.

(* ================================================================== *)
(** * Binary32 arithmetic *)
(* ================================================================== *)

Module Float32.

(** The numbers of IEEE 754 binary32, the default dtype of Keras, with
    their rounding: 24 bits of precision and exponents below 128.
    [S754_finite s m e] is the number [(-1)^s * m * 2^e]. *)
Definition f32 : Type := SpecFloat.spec_float.

Definition prec : Z := 24.
Definition emax : Z := 128.

Definition add : f32 -> f32 -> f32 := SpecFloat.SFadd prec emax.
Definition sub : f32 -> f32 -> f32 := SpecFloat.SFsub prec emax.
Definition mul : f32 -> f32 -> f32 := SpecFloat.SFmul prec emax.
Definition div : f32 -> f32 -> f32 := SpecFloat.SFdiv prec emax.

Definition zero : f32 := SpecFloat.S754_zero false.

(** The number of entries of a tensor, as a float. *)
Definition of_nat (n : nat) : f32 :=
  SpecFloat.binary_normalize prec emax (Z.of_nat n) 0 false.

(** [keras.ops.mean] of a vector: the sum of the entries divided by their
    number.  The order in which the backend adds is not fixed; here it is
    from the right. *)
Definition mean (v : list f32) : f32 :=
  div (foldr add zero v) (of_nat (length v)).

(** [keras.losses.mean_squared_error] on two tensors of one shape: the mean
    over the last axis of the squared difference. *)
Definition mean_squared_error (y_true y_pred : list (list f32)) : list f32 :=
  map (fun d => mean (map (fun e => mul e e) d))
      (zip_with (zip_with sub) y_true y_pred).

(** Lines 149 and 150 of [FlowMatching.compute_metrics]: the loss of a
    target and a predicted velocity. *)
Definition loss (target_velocity predicted_velocity : list (list f32)) : f32 :=
  let loss := mean_squared_error target_velocity predicted_velocity in
  let loss := mean loss in
  loss.

End Float32.

(* ================================================================== *)
(** * bayesflow/losses.py and sbi/losses.py *)
(* ================================================================== *)

Module Losses.
Import Float.

Local Open Scope R_scope.

(** A tensor of shape (batch_size, n_models). *)
Definition tensor2 : Type := list (list fval).

(** The bounds of the clamp as the literals denote them.  On binary32
    tensors the upper literal rounds to one: the clamped probabilities are
    then at most one, not below it, and the loss can be zero. *)
Definition clip_min : fval := Fin (/ 10 ^ 15).
Definition clip_max : fval := Fin (1 - / 10 ^ 15).

(** [alpha / tf.reduce_sum(alpha, axis=1, keepdims=True)]: every row is
    divided by its own sum. *)
Definition normalize (alpha : tensor2) : tensor2 :=
  map (fun row => map (fun a => fdiv a (reduce_sum row)) row) alpha.

(** [tf.clip_by_value(model_probs, 1e-15, 1 - 1e-15)]. *)
Definition clipped_probs (alpha : tensor2) : tensor2 :=
  map (map (fun p => clip_by_value p clip_min clip_max)) (normalize alpha).

(** Element-wise product of two tensors of the same shape. *)
Definition tmul (a b : tensor2) : tensor2 := zip_with (zip_with fmul) a b.

(** bayesflow/losses.py, [log_loss(model_indices, alpha)]. *)
Definition log_loss (model_indices alpha : tensor2) : fval :=
  let model_probs := normalize alpha in
  let model_probs :=
    map (map (fun p => clip_by_value p clip_min clip_max)) model_probs in
  fneg (reduce_mean
          (map reduce_sum (tmul model_indices (map (map flog) model_probs)))).

Section Dirichlet.

(** [tf.math.digamma] and [tf.math.lgamma], TensorFlow primitives. *)
Variable digamma lgamma : fval -> fval.

(** [kl_dirichlet(model_indices, alpha)], the same text in both files. *)
Definition kl_dirichlet (model_indices alpha : tensor2) : fval :=
  let J := length (hd [] model_indices) in
  let alpha :=
    zip_with (zip_with (fun a m => fadd (fmul a (fsub (Fin 1) m)) m))
             alpha model_indices in
  let beta := repeat (Fin 1) J in
  let kl_row (row : list fval) : fval :=
    let alpha0 := reduce_sum row in
    fsub
      (fadd
         (fsub
            (fadd
               (reduce_sum
                  (zip_with (fun a b =>
                               fmul (fsub a b) (fsub (digamma a) (digamma alpha0)))
                            row beta))
               (lgamma alpha0))
            (reduce_sum (map lgamma row)))
         (reduce_sum (map lgamma beta)))
      (lgamma (reduce_sum beta)) in
  reduce_mean (map kl_row alpha).

(** sbi/losses.py, [log_loss(network, model_indices, sim_data, lambd)]: the
    evidences come from the network, the rest is the same clamp and
    logarithm, plus the weighted KL term when [lambd > 0]. *)
Definition sbi_log_loss {Data : Type} (network : Data -> tensor2)
    (model_indices : tensor2) (sim_data : Data) (lambd : R) : fval :=
  let alpha := network sim_data in
  let model_probs := normalize alpha in
  let model_probs :=
    map (map (fun p => clip_by_value p clip_min clip_max)) model_probs in
  let loss :=
    fneg (reduce_mean
            (map reduce_sum (tmul model_indices (map (map flog) model_probs)))) in
  if Rlt_dec 0 lambd
  then fadd loss (fmul (Fin lambd) (kl_dirichlet model_indices alpha))
  else loss.

End Dirichlet.

(** The shape (B, n) of a tensor given as a list of rows. *)
Definition has_shape2 (B n : nat) (t : tensor2) : Prop :=
  length t = B /\ Forall (fun row => length row = n) t.

Definition all_finite (t : tensor2) : Prop := Forall (Forall is_finite) t.

(** Every entry is zero or one, as in one-hot encoded model indices. *)
Definition indicator (t : tensor2) : Prop :=
  Forall (Forall (fun m => m = Fin 0 \/ m = Fin 1)) t.

(** No quotient [alpha / sum] is NaN: no [0 / 0], no [inf / inf], no NaN
    entry. *)
Definition quotients_defined (alpha : tensor2) : Prop :=
  Forall (Forall (fun p => p <> NaN)) (normalize alpha).

(** A value lies in the clamp interval. *)
Definition in_clip_range (p : fval) : Prop :=
  exists r, p = Fin r /\ / 10 ^ 15 <= r <= 1 - / 10 ^ 15.

(** ** Facts about the clamp *)

Lemma eps_bounds : 0 < / 10 ^ 15 /\ / 10 ^ 15 < / 2.
Proof.
  assert (H2 : 2 < 10 ^ 15) by (simpl; lra).
  split.
  - apply Rinv_0_lt_compat. lra.
  - apply Rinv_lt_contravar; lra.
Qed.

Lemma clip_by_value_range (p : fval) :
  p <> NaN -> in_clip_range (clip_by_value p clip_min clip_max).
Proof.
  destruct eps_bounds as [Hpos Hhalf].
  intros Hp. unfold in_clip_range, clip_by_value, clip_min, clip_max.
  destruct p as [r | | |]; simpl; try congruence.
  - eexists; split; [reflexivity |].
    unfold Rmax, Rmin.
    repeat (destruct (Rle_dec _ _)); lra.
  - eexists; split; [reflexivity |].
    unfold Rmax. destruct (Rle_dec _ _); lra.
  - eexists; split; [reflexivity |]. lra.
Qed.

Lemma flog_in_clip_range (p : fval) :
  in_clip_range p -> exists r, flog p = Fin r /\ r <= 0.
Proof.
  destruct eps_bounds as [Hpos Hhalf].
  intros (r & -> & Hlo & Hhi). simpl.
  destruct (Rlt_dec 0 r) as [Hr | Hr]; [| lra].
  exists (ln r). split; [reflexivity |].
  rewrite <- ln_1. destruct (Req_dec_T r 1) as [-> | Hne]; [lra |].
  left. apply ln_increasing; lra.
Qed.

Lemma reduce_sum_finite (row : list fval) :
  Forall is_finite row -> is_finite (reduce_sum row).
Proof.
  unfold reduce_sum.
  induction 1 as [| x row Hx _ IH]; simpl; [exact I |].
  destruct x; try contradiction.
  destruct (foldr fadd (Fin 0) row); try contradiction. exact I.
Qed.

Lemma fmul_finite (x y : fval) : is_finite x -> is_finite y -> is_finite (fmul x y).
Proof. destruct x, y; simpl; tauto. Qed.

Lemma clipped_probs_in_range (alpha : tensor2) :
  quotients_defined alpha ->
  Forall (Forall in_clip_range) (clipped_probs alpha).
Proof.
  unfold quotients_defined, clipped_probs. intros H.
  apply Forall_fmap. eapply List.Forall_impl; [| exact H].
  intros row Hrow. simpl. apply Forall_fmap.
  eapply List.Forall_impl; [| exact Hrow].
  intros p Hp. simpl. by apply clip_by_value_range.
Qed.

Lemma row_terms_finite (ms ps : list fval) :
  Forall is_finite ms -> Forall in_clip_range ps ->
  Forall is_finite (zip_with fmul ms (map flog ps)).
Proof.
  intros Hm. revert ps. induction Hm as [| m ms Hm _ IH]; intros ps Hp.
  - constructor.
  - destruct Hp as [| p ps Hp Hps]; simpl; constructor.
    + destruct (flog_in_clip_range p Hp) as (r & -> & _).
      by apply fmul_finite.
    + by apply IH.
Qed.

Lemma row_sums_finite (mi ps : tensor2) :
  all_finite mi -> Forall (Forall in_clip_range) ps ->
  Forall is_finite (map reduce_sum (tmul mi (map (map flog) ps))).
Proof.
  intros Hm. revert ps. induction Hm as [| m mi Hm _ IH]; intros ps Hp.
  - constructor.
  - destruct Hp as [| p ps Hp Hps]; simpl; constructor.
    + apply reduce_sum_finite. by apply row_terms_finite.
    + by apply IH.
Qed.

Lemma reduce_mean_finite (v : list fval) :
  (0 < length v)%nat -> Forall is_finite v -> is_finite (reduce_mean v).
Proof.
  intros Hlen Hv. unfold reduce_mean.
  pose proof (reduce_sum_finite v Hv) as Hs.
  destruct (reduce_sum v); try contradiction. simpl.
  destruct (Req_dec_T (INR (length v)) 0) as [H0 | _]; [| exact I].
  apply (lt_INR 0) in Hlen. simpl in Hlen. lra.
Qed.

(** On the documented domain (finite evidences of at least one, at least
    one model) every quotient is an ordinary number. *)
Lemma quotients_defined_documented (alpha : tensor2) :
  Forall (fun row => row <> [] /\
                     Forall (fun a => exists r, a = Fin r /\ 1 <= r) row) alpha ->
  quotients_defined alpha.
Proof.
  intros H. unfold quotients_defined, normalize.
  apply Forall_fmap. eapply List.Forall_impl; [| exact H].
  intros row [Hne Hrow]. simpl.
  assert (Hsum : exists s, reduce_sum row = Fin s /\ INR (length row) <= s).
  { clear Hne. induction Hrow as [| a row (r & -> & Hr) _ (s & Hs & Hle)].
    - exists 0. split; [reflexivity | simpl; lra].
    - exists (r + s). unfold reduce_sum in *. simpl foldr. rewrite Hs.
      split; [reflexivity |].
      change (length (Fin r :: row)) with (S (length row)).
      rewrite S_INR. lra. }
  destruct Hsum as (s & Hs & Hle).
  assert (Hpos : 0 < s).
  { destruct row as [| a row']; [congruence |].
    simpl length in Hle. rewrite S_INR in Hle.
    pose proof (pos_INR (length row')). lra. }
  apply Forall_fmap. eapply List.Forall_impl; [| exact Hrow].
  intros a (r & -> & _). simpl. rewrite Hs. simpl.
  destruct (Req_dec_T s 0); [lra | congruence].
Qed.

(** A zero denominator under a non-zero evidence gives an infinity, which
    the clamp brings back into the interval. *)
Lemma zero_denominator_clamped (a : R) :
  a <> 0 -> in_clip_range (clip_by_value (fdiv (Fin a) (Fin 0)) clip_min clip_max).
Proof.
  intros Ha. apply clip_by_value_range. simpl.
  destruct (Req_dec_T 0 0) as [_ | Hne]; [| congruence].
  unfold inf_signed. destruct (Rlt_dec 0 a); [congruence |].
  destruct (Rlt_dec a 0); [congruence | lra].
Qed.

(** The mean over an empty batch is [0 / 0]. *)
Lemma log_loss_empty_batch : log_loss [] [] = NaN.
Proof.
  unfold log_loss, reduce_mean. simpl.
  destruct (Req_dec_T 0 0) as [_ | Hne]; [| congruence].
  unfold inf_signed. destruct (Rlt_dec 0 0); [lra | reflexivity].
Qed.

(** Without the KL weight the sbi variant is the bayesflow function on the
    network's output. *)
Lemma sbi_log_loss_no_kl (digamma lgamma : fval -> fval) {Data : Type}
    (network : Data -> tensor2) (mi : tensor2) (d : Data) (lambd : R) :
  lambd <= 0 ->
  sbi_log_loss digamma lgamma network mi d lambd = log_loss mi (network d).
Proof.
  intros Hl. unfold sbi_log_loss, log_loss.
  destruct (Rlt_dec 0 lambd); [lra | reflexivity].
Qed.

(** ** A value of the loss *)

Lemma fdiv_finite (a b : R) : b <> 0 -> fdiv (Fin a) (Fin b) = Fin (a / b).
Proof. intros Hb. simpl. by destruct (Req_dec_T b 0). Qed.

Lemma clip_by_value_inside (r : R) :
  / 10 ^ 15 <= r <= 1 - / 10 ^ 15 ->
  clip_by_value (Fin r) clip_min clip_max = Fin r.
Proof.
  intros [Hlo Hhi]. unfold clip_by_value, clip_min, clip_max. simpl.
  rewrite Rmin_left by exact Hhi. by rewrite Rmax_left by exact Hlo.
Qed.

Lemma flog_positive (r : R) : 0 < r -> flog (Fin r) = Fin (ln r).
Proof. intros Hr. simpl. by destruct (Rlt_dec 0 r). Qed.

(** One batch element of the first of two models, evidences 1 and 3: the
    loss is [- ln (1/4)]. *)
Example log_loss_value :
  log_loss [[Fin 1; Fin 0]] [[Fin 1; Fin 3]] = Fin (ln 4).
Proof.
  destruct eps_bounds as [Hpos Hhalf].
  unfold log_loss, normalize, reduce_sum. simpl foldr. simpl map.
  destruct (Req_dec_T (1 + (3 + 0)) 0) as [H0 | _]; [lra |].
  rewrite !clip_by_value_inside by (split; lra).
  rewrite !flog_positive by lra.
  unfold reduce_mean, reduce_sum. simpl.
  destruct (Req_dec_T 1 0) as [H10 | _]; [lra |].
  simpl. f_equal.
  replace (1 / (1 + (3 + 0))) with (/ 4) by field.
  rewrite ln_Rinv by lra. lra.
Qed.

Lemma log_loss_finite_indices (model_indices alpha : tensor2) :
  (0 < length model_indices)%nat ->
  length model_indices = length alpha ->
  all_finite model_indices ->
  quotients_defined alpha ->
  is_finite (log_loss model_indices alpha).
Proof.
  intros HB Hlen Hfin Hq.
  pose proof (clipped_probs_in_range alpha Hq) as Hrange.
  change (is_finite
            (fneg (reduce_mean
               (map reduce_sum
                  (tmul model_indices (map (map flog) (clipped_probs alpha))))))).
  assert (Hmean : is_finite
            (reduce_mean
               (map reduce_sum
                  (tmul model_indices (map (map flog) (clipped_probs alpha)))))).
  { apply reduce_mean_finite; [| by apply row_sums_finite].
    rewrite length_map. unfold tmul. rewrite length_zip_with, length_map.
    unfold clipped_probs, normalize. rewrite !length_map. lia. }
  destruct (reduce_mean _); try contradiction. exact I.
Qed.

Lemma indicator_finite (t : tensor2) : indicator t -> all_finite t.
Proof.
  unfold indicator, all_finite. intros H.
  eapply List.Forall_impl; [| exact H]. intros row Hrow. simpl in *.
  eapply List.Forall_impl; [| exact Hrow]. intros m [-> | ->]; exact I.
Qed.

(** C8 (amended). For model indices and evidences of shape (B, n) with a
    non-empty batch, model indices that are zeros and ones, and no NaN
    among the quotients [alpha / sum], [log_loss] takes the logarithm of
    values that the clamp has put in [1e-15, 1 - 1e-15], and its result is
    a finite number. *)
Theorem log_loss_clamped_finite (B n : nat) (model_indices alpha : tensor2) :
  has_shape2 B n model_indices ->
  has_shape2 B n alpha ->
  (0 < B)%nat ->
  indicator model_indices ->
  quotients_defined alpha ->
  Forall (Forall in_clip_range) (clipped_probs alpha) /\
  log_loss model_indices alpha =
    fneg (reduce_mean
            (map reduce_sum
                 (tmul model_indices (map (map flog) (clipped_probs alpha))))) /\
  is_finite (log_loss model_indices alpha).
Proof.
  intros [HmB _] [HaB _] HB Hind Hq.
  split; [by apply clipped_probs_in_range |]. split; [reflexivity |].
  apply log_loss_finite_indices; [lia | congruence | | exact Hq].
  by apply indicator_finite.
Qed.

(** The theorem at one batch element, two models and the evidences 1 and
    3. *)
Lemma log_loss_clamped_finite_witness :
  is_finite (log_loss [[Fin 1; Fin 0]] [[Fin 1; Fin 3]]).
Proof.
  apply (log_loss_clamped_finite 1 2 [[Fin 1; Fin 0]] [[Fin 1; Fin 3]]).
  - split; [reflexivity |]. repeat constructor.
  - split; [reflexivity |]. repeat constructor.
  - lia.
  - constructor; [| constructor].
    constructor; [by right | constructor; [by left | constructor]].
  - apply quotients_defined_documented.
    repeat constructor; try congruence; eexists; (split; [reflexivity | lra]).
Defined.

Lemma log_loss_zero_evidence :
  log_loss [[Fin 1; Fin 0]] [[Fin 0; Fin 0]] = NaN.
Proof.
  unfold log_loss, normalize, reduce_sum. simpl.
  destruct (Req_dec_T (0 + (0 + 0)) 0) as [_ | Hne]; [| lra].
  unfold inf_signed. destruct (Rlt_dec 0 0); [lra |]. reflexivity.
Qed.

(** The sbi variant on a network that returns zero evidences, without the
    KL term. *)
Lemma sbi_log_loss_zero_evidence (digamma lgamma : fval -> fval) :
  sbi_log_loss digamma lgamma (fun _ : unit => [[Fin 0; Fin 0]])
               [[Fin 1; Fin 0]] tt 0 = NaN.
Proof.
  rewrite sbi_log_loss_no_kl by lra. apply log_loss_zero_evidence.
Qed.

(** C8 as stated fails: evidences that are all zero give [0 / 0] = NaN, the
    clamp lets NaN through, and the loss is NaN. *)
Lemma log_loss_zero_evidence_nan :
  log_loss [[Fin 1; Fin 0]] [[Fin 0; Fin 0]] = NaN /\
  ~ is_finite (log_loss [[Fin 1; Fin 0]] [[Fin 0; Fin 0]]).
Proof.
  split; [apply log_loss_zero_evidence |].
  rewrite log_loss_zero_evidence. simpl. tauto.
Qed.

(** ** Scaling the evidences *)

Definition scale (c : R) (alpha : tensor2) : tensor2 :=
  map (map (fmul (Fin c))) alpha.

Lemma reduce_sum_scale (c : R) (row : list fval) :
  Forall is_finite row ->
  exists s, reduce_sum row = Fin s /\
            reduce_sum (map (fmul (Fin c)) row) = Fin (c * s).
Proof.
  unfold reduce_sum. induction 1 as [| a row Ha _ (s & Hs & Hcs)]; simpl.
  - exists 0. split; [reflexivity |]. f_equal. ring.
  - destruct a as [a | | |]; try contradiction.
    exists (a + s). rewrite Hs, Hcs. simpl. split; [reflexivity |].
    f_equal. ring.
Qed.

Lemma fdiv_scale (c a s : R) :
  0 < c -> fdiv (Fin (c * a)) (Fin (c * s)) = fdiv (Fin a) (Fin s).
Proof.
  intros Hc. simpl.
  destruct (Req_dec_T s 0) as [-> | Hs].
  - destruct (Req_dec_T (c * 0) 0) as [_ | Hne]; [| exfalso; apply Hne; ring].
    unfold inf_signed.
    destruct (Rlt_dec 0 a) as [Ha | Ha].
    + destruct (Rlt_dec 0 (c * a)) as [_ | Hca]; [reflexivity | nra].
    + destruct (Rlt_dec 0 (c * a)) as [Hca | _]; [nra |].
      destruct (Rlt_dec a 0) as [Ha' | Ha'].
      * destruct (Rlt_dec (c * a) 0) as [_ | Hca]; [reflexivity | nra].
      * destruct (Rlt_dec (c * a) 0) as [Hca | _]; [nra | reflexivity].
  - destruct (Req_dec_T (c * s) 0) as [Hcs | _]; [nra |].
    f_equal. field. split; lra.
Qed.

Lemma normalize_scale (c : R) (alpha : tensor2) :
  0 < c -> all_finite alpha -> normalize (scale c alpha) = normalize alpha.
Proof.
  intros Hc Hfin. unfold normalize, scale. rewrite map_map.
  apply Forall_fmap_ext_1. eapply List.Forall_impl; [| exact Hfin].
  intros row Hrow. simpl.
  destruct (reduce_sum_scale c row Hrow) as (s & Hs & Hcs).
  rewrite Hs, Hcs, map_map.
  apply Forall_fmap_ext_1. eapply List.Forall_impl; [| exact Hrow].
  intros a Ha. simpl. destruct a as [a | | |]; try contradiction.
  change (fmul (Fin c) (Fin a)) with (Fin (c * a)).
  by apply fdiv_scale.
Qed.

(** X1. The loss sees the evidences through their proportions only:
    multiplying all evidences by a positive number leaves it unchanged. *)
Theorem log_loss_scale_invariant (c : R) (model_indices alpha : tensor2) :
  0 < c -> all_finite alpha ->
  log_loss model_indices (scale c alpha) = log_loss model_indices alpha.
Proof.
  intros Hc Hfin. unfold log_loss. by rewrite normalize_scale.
Qed.

Lemma log_loss_scale_invariant_witness :
  log_loss [[Fin 1; Fin 0]] (scale 2 [[Fin 1; Fin 3]]) =
  log_loss [[Fin 1; Fin 0]] [[Fin 1; Fin 3]].
Proof.
  apply (log_loss_scale_invariant 2); [lra |]. repeat constructor.
Defined.

(** ** One-hot rows *)

Definition one_hot (row : list fval) : Prop :=
  exists i j : nat, row = replicate i (Fin 0) ++ Fin 1 :: replicate j (Fin 0).

Definition in_log_range (v : fval) : Prop :=
  exists r, v = Fin r /\ ln (/ 10 ^ 15) <= r <= ln (1 - / 10 ^ 15).

Lemma flog_in_log_range (p : fval) : in_clip_range p -> in_log_range (flog p).
Proof.
  destruct eps_bounds as [Hpos Hhalf].
  intros (r & -> & Hlo & Hhi). simpl.
  destruct (Rlt_dec 0 r) as [Hr | Hr]; [| lra].
  exists (ln r). split; [reflexivity |]. split.
  - destruct Hlo as [Hlo | <-]; [left; by apply ln_increasing | right; reflexivity].
  - destruct Hhi as [Hhi | ->]; [left; by apply ln_increasing | right; reflexivity].
Qed.

Lemma zero_row_sum (j : nat) (ls : list fval) :
  Forall in_log_range ls ->
  exists r, reduce_sum (zip_with fmul (replicate j (Fin 0)) ls) = Fin r /\ r = 0.
Proof.
  unfold reduce_sum. revert ls. induction j as [| j IH]; intros ls Hls.
  - exists 0. by split.
  - destruct Hls as [| l ls (x & -> & _) Hls]; [exists 0; by split |].
    destruct (IH ls Hls) as (r & Hr & ->). simpl. rewrite Hr. simpl.
    eexists; split; [reflexivity |]. ring.
Qed.

Lemma one_hot_row_sum (row ls : list fval) :
  one_hot row -> length ls = length row -> Forall in_log_range ls ->
  in_log_range (reduce_sum (zip_with fmul row ls)).
Proof.
  intros (i & j & ->). revert ls. induction i as [| i IH]; intros ls Hlen Hls.
  - simpl in *. destruct Hls as [| l ls (x & -> & Hx) Hls]; [simpl in Hlen; lia |].
    destruct (zero_row_sum j ls Hls) as (r & Hr & ->).
    unfold reduce_sum in *. simpl. rewrite Hr. simpl.
    eexists; split; [reflexivity |]. lra.
  - destruct Hls as [| l ls (x & -> & Hx) Hls]; [simpl in Hlen; lia |].
    destruct (IH ls) as (r & Hr & Hrange); [simpl in *; lia | exact Hls |].
    unfold reduce_sum in *. simpl. rewrite Hr. simpl.
    eexists; split; [reflexivity |]. lra.
Qed.

Lemma reduce_sum_bounds (a b : R) (v : list fval) :
  Forall (fun x => exists r, x = Fin r /\ a <= r <= b) v ->
  exists s, reduce_sum v = Fin s /\
            INR (length v) * a <= s <= INR (length v) * b.
Proof.
  unfold reduce_sum. induction 1 as [| x v (r & -> & Hr) _ (s & Hs & Hb)].
  - exists 0. split; [reflexivity |]. simpl. lra.
  - exists (r + s). simpl foldr. rewrite Hs. split; [reflexivity |].
    change (length (Fin r :: v)) with (S (length v)). rewrite S_INR. lra.
Qed.

Lemma reduce_mean_bounds (a b : R) (v : list fval) :
  (0 < length v)%nat ->
  Forall (fun x => exists r, x = Fin r /\ a <= r <= b) v ->
  exists m, reduce_mean v = Fin m /\ a <= m <= b.
Proof.
  intros Hlen Hv. destruct (reduce_sum_bounds a b v Hv) as (s & Hs & Hlo & Hhi).
  unfold reduce_mean. rewrite Hs. simpl.
  assert (Hn : 0 < INR (length v)) by (apply lt_0_INR; lia).
  destruct (Req_dec_T (INR (length v)) 0) as [H0 | _]; [lra |].
  eexists; split; [reflexivity |]. split.
  - apply Rmult_le_reg_r with (INR (length v)); [exact Hn |].
    unfold Rdiv. rewrite Rmult_assoc, Rinv_l by lra. lra.
  - apply Rmult_le_reg_r with (INR (length v)); [exact Hn |].
    unfold Rdiv. rewrite Rmult_assoc, Rinv_l by lra. lra.
Qed.

Lemma rows_in_log_range (mi ps : tensor2) (n : nat) :
  Forall one_hot mi ->
  Forall (fun row => length row = n) mi ->
  Forall (fun row => length row = n) ps ->
  Forall (Forall in_clip_range) ps ->
  Forall in_log_range (map reduce_sum (tmul mi (map (map flog) ps))).
Proof.
  intros Hoh. revert ps. induction Hoh as [| m mi Hm _ IH]; intros ps Hmn Hpn Hp.
  - constructor.
  - destruct Hp as [| p ps Hp Hps]; [constructor |].
    inversion Hmn; inversion Hpn; subst. simpl. constructor.
    + apply one_hot_row_sum; [exact Hm | rewrite length_map; congruence |].
      apply Forall_fmap. eapply List.Forall_impl; [| exact Hp].
      intros q Hq. simpl. by apply flog_in_log_range.
    + by apply IH.
Qed.

(** X2. With one-hot model indices the loss is a number that is not
    negative and at most [15 ln 10], the negated logarithm of the lower
    bound of the clamp. *)
Theorem log_loss_one_hot_bounds (B n : nat) (model_indices alpha : tensor2) :
  has_shape2 B n model_indices ->
  has_shape2 B n alpha ->
  (0 < B)%nat ->
  Forall one_hot model_indices ->
  quotients_defined alpha ->
  exists r, log_loss model_indices alpha = Fin r /\ 0 <= r <= 15 * ln 10.
Proof.
  destruct eps_bounds as [Hpos Hhalf].
  intros [HmB Hmn] [HaB Han] HB Hoh Hq.
  pose proof (clipped_probs_in_range alpha Hq) as Hrange.
  assert (Hrows : Forall in_log_range
            (map reduce_sum
               (tmul model_indices (map (map flog) (clipped_probs alpha))))).
  { apply (rows_in_log_range _ _ n); try done.
    unfold clipped_probs, normalize. apply Forall_fmap, Forall_fmap.
    eapply List.Forall_impl; [| exact Han]. intros row Hrow. simpl.
    by rewrite !length_map. }
  assert (Hlen : (0 < length
            (map reduce_sum
               (tmul model_indices (map (map flog) (clipped_probs alpha)))))%nat).
  { rewrite length_map. unfold tmul. rewrite length_zip_with, length_map.
    unfold clipped_probs, normalize. rewrite !length_map. lia. }
  destruct (reduce_mean_bounds (ln (/ 10 ^ 15)) (ln (1 - / 10 ^ 15)) _ Hlen Hrows)
    as (m & Hm & Hlo & Hhi).
  exists (- m).
  change (log_loss model_indices alpha) with
    (fneg (reduce_mean
             (map reduce_sum
                (tmul model_indices (map (map flog) (clipped_probs alpha)))))).
  rewrite Hm. split; [reflexivity |].
  assert (Hln_hi : ln (1 - / 10 ^ 15) < 0).
  { rewrite <- ln_1. apply ln_increasing; lra. }
  assert (Hln_lo : ln (/ 10 ^ 15) = - (15 * ln 10)).
  { rewrite ln_Rinv by (apply pow_lt; lra). rewrite ln_pow by lra.
    simpl INR. f_equal. f_equal. lra. }
  lra.
Qed.

Lemma log_loss_one_hot_bounds_witness :
  exists r, log_loss [[Fin 1; Fin 0]] [[Fin 1; Fin 3]] = Fin r /\
            0 <= r <= 15 * ln 10.
Proof.
  apply (log_loss_one_hot_bounds 1 2).
  - split; [reflexivity |]. repeat constructor.
  - split; [reflexivity |]. repeat constructor.
  - lia.
  - constructor; [| constructor]. exists 0%nat, 1%nat. reflexivity.
  - apply quotients_defined_documented.
    repeat constructor; try congruence; eexists; (split; [reflexivity | lra]).
Defined.

(** ** The KL term and the true model

    The evidences as [kl_dirichlet] uses them: [alpha * (1 - m) + m]. *)
Lemma adjusted_true_model (a : R) :
  fadd (fmul (Fin a) (fsub (Fin 1) (Fin 1))) (Fin 1) = Fin 1.
Proof. simpl. f_equal. ring. Qed.

Lemma adjusted_other_model (a : R) :
  fadd (fmul (Fin a) (fsub (Fin 1) (Fin 0))) (Fin 0) = Fin a.
Proof. simpl. f_equal. ring. Qed.

(** Two evidence tensors that differ at most where the model index is
    one. *)
Definition agree_off_truth (model_indices alpha alpha' : tensor2) : Prop :=
  Forall3 (Forall3 (fun m a a' =>
                      is_finite a /\ is_finite a' /\
                      (m = Fin 1 \/ (m = Fin 0 /\ a = a'))))
          model_indices alpha alpha'.

Lemma adjusted_agree (model_indices alpha alpha' : tensor2) :
  agree_off_truth model_indices alpha alpha' ->
  zip_with (zip_with (fun a m => fadd (fmul a (fsub (Fin 1) m)) m))
           alpha model_indices =
  zip_with (zip_with (fun a m => fadd (fmul a (fsub (Fin 1) m)) m))
           alpha' model_indices.
Proof.
  induction 1 as [| ms as_ as' mi alpha alpha' Hrow _ IH]; [reflexivity |].
  simpl. f_equal; [| exact IH].
  induction Hrow as [| m a a' ms as_ as' (Ha & Ha' & Hm) _ IHr]; [reflexivity |].
  simpl. f_equal; [| exact IHr].
  destruct a as [a | | |], a' as [a' | | |]; try contradiction.
  destruct Hm as [-> | [-> Heq]].
  - by rewrite !adjusted_true_model.
  - by rewrite Heq.
Qed.

(** X3. The KL term does not see the evidence of the true model: two
    evidence tensors that differ only where the model index is one give the
    same value. *)
Theorem kl_dirichlet_ignores_true_model (digamma lgamma : fval -> fval)
    (model_indices alpha alpha' : tensor2) :
  agree_off_truth model_indices alpha alpha' ->
  kl_dirichlet digamma lgamma model_indices alpha =
  kl_dirichlet digamma lgamma model_indices alpha'.
Proof.
  intros H. unfold kl_dirichlet. by rewrite (adjusted_agree _ _ _ H).
Qed.

Lemma kl_dirichlet_ignores_true_model_witness :
  kl_dirichlet (fun _ => Fin 0) (fun _ => Fin 0)
               [[Fin 1; Fin 0]] [[Fin 5; Fin 2]] =
  kl_dirichlet (fun _ => Fin 0) (fun _ => Fin 0)
               [[Fin 1; Fin 0]] [[Fin 7; Fin 2]].
Proof.
  apply kl_dirichlet_ignores_true_model.
  constructor; [| constructor].
  constructor; [by repeat split; try left |].
  constructor; [| constructor].
  split; [exact I |]. split; [exact I |]. right. by split.
Defined.


(** ** The uniform Dirichlet *)

Lemma adjusted_all_ones (ms : list fval) :
  Forall (fun m => m = Fin 0 \/ m = Fin 1) ms ->
  zip_with (fun a m => fadd (fmul a (fsub (Fin 1) m)) m)
           (replicate (length ms) (Fin 1)) ms =
  replicate (length ms) (Fin 1).
Proof.
  induction 1 as [| m ms Hm _ IH]; [reflexivity |].
  simpl. f_equal; [| exact IH].
  destruct Hm as [-> | ->]; simpl; f_equal; ring.
Qed.

Lemma ones_sum_finite (J : nat) : exists s, reduce_sum (replicate J (Fin 1)) = Fin s.
Proof.
  unfold reduce_sum. induction J as [| J (s & Hs)]; [by exists 0 |].
  exists (1 + s). simpl. by rewrite Hs.
Qed.

Section Uniform.
Variable digamma lgamma : fval -> fval.
Variable J : nat.
Let total := reduce_sum (replicate J (Fin 1)).
Hypothesis digamma_one : is_finite (digamma (Fin 1)).
Hypothesis digamma_total : is_finite (digamma total).
Hypothesis lgamma_one : is_finite (lgamma (Fin 1)).
Hypothesis lgamma_total : is_finite (lgamma total).

Lemma first_sum_zero (n : nat) :
  exists r,
    reduce_sum (zip_with (fun a b => fmul (fsub a b)
                                      (fsub (digamma a) (digamma total)))
                         (replicate n (Fin 1)) (replicate n (Fin 1))) = Fin r /\
    r = 0.
Proof.
  unfold reduce_sum. induction n as [| n (r & Hr & ->)]; [by exists 0 |].
  simpl. rewrite Hr.
  destruct (digamma (Fin 1)) as [d1 | | |]; try contradiction.
  destruct (digamma total) as [dt | | |]; try contradiction.
  simpl. eexists; split; [reflexivity |]. ring.
Qed.

Lemma lgamma_sum_finite (n : nat) :
  exists r, reduce_sum (map lgamma (replicate n (Fin 1))) = Fin r.
Proof.
  unfold reduce_sum. induction n as [| n (r & Hr)]; [by exists 0 |].
  simpl. rewrite Hr. destruct (lgamma (Fin 1)) as [l | | |]; try contradiction.
  by eexists.
Qed.

Lemma uniform_row_zero :
  exists r,
    fsub
      (fadd
         (fsub
            (fadd
               (reduce_sum
                  (zip_with (fun a b => fmul (fsub a b)
                                          (fsub (digamma a) (digamma total)))
                            (replicate J (Fin 1)) (replicate J (Fin 1))))
               (lgamma total))
            (reduce_sum (map lgamma (replicate J (Fin 1)))))
         (reduce_sum (map lgamma (replicate J (Fin 1)))))
      (lgamma total) = Fin r /\ r = 0.
Proof.
  destruct (first_sum_zero J) as (r1 & -> & ->).
  destruct (lgamma_sum_finite J) as (r2 & ->).
  destruct (lgamma total) as [lt | | |]; try contradiction.
  simpl. eexists; split; [reflexivity |]. ring.
Qed.
End Uniform.

Lemma repeat_replicate {A : Type} (x : A) (n : nat) : repeat x n = replicate n x.
Proof. induction n as [| n IH]; [reflexivity |]. simpl. by rewrite IH. Qed.

Lemma zeros_sum (n : nat) : reduce_sum (replicate n (Fin 0)) = Fin 0.
Proof.
  unfold reduce_sum. induction n as [| n IH]; [reflexivity |].
  simpl. rewrite IH. simpl. f_equal. ring.
Qed.

(** X4. For evidences that are all one, the Dirichlet of the network is the
    uniform one and the KL term is zero. *)
Theorem kl_dirichlet_uniform_zero (digamma lgamma : fval -> fval) (B J : nat)
    (model_indices : tensor2) :
  has_shape2 B J model_indices ->
  (0 < B)%nat ->
  indicator model_indices ->
  is_finite (digamma (Fin 1)) ->
  is_finite (digamma (reduce_sum (replicate J (Fin 1)))) ->
  is_finite (lgamma (Fin 1)) ->
  is_finite (lgamma (reduce_sum (replicate J (Fin 1)))) ->
  kl_dirichlet digamma lgamma model_indices
               (replicate B (replicate J (Fin 1))) = Fin 0.
Proof.
  intros [HB HJ] HBpos Hind Hd1 Hdt Hl1 Hlt.
  assert (HJhd : length (hd [] model_indices) = J).
  { destruct model_indices as [| m mi]; [simpl in HB; lia |].
    by inversion HJ. }
  unfold kl_dirichlet. rewrite HJhd, repeat_replicate.
  assert (Hadj :
    zip_with (zip_with (fun a m => fadd (fmul a (fsub (Fin 1) m)) m))
             (replicate B (replicate J (Fin 1))) model_indices =
    replicate B (replicate J (Fin 1))).
  { subst B. clear HBpos HJhd. induction Hind as [| m mi Hm _ IH]; [reflexivity |].
    inversion HJ as [| ? ? HmJ HJ']; subst. simpl. f_equal; [| by apply IH].
    by apply adjusted_all_ones. }
  rewrite Hadj. cbv zeta.
  destruct (uniform_row_zero digamma lgamma J Hd1 Hdt Hl1 Hlt) as (r & Hr & ->).
  rewrite fmap_replicate.
  rewrite Hr. unfold reduce_mean. rewrite zeros_sum, length_replicate. simpl.
  destruct (Req_dec_T (INR B) 0) as [H0 | _].
  - apply (lt_INR 0) in HBpos. simpl in HBpos. lra.
  - f_equal. unfold Rdiv. ring.
Qed.

Lemma kl_dirichlet_uniform_zero_witness :
  kl_dirichlet (fun _ => Fin 0) (fun _ => Fin 0) [[Fin 1; Fin 0]]
               (replicate 1 (replicate 2 (Fin 1))) = Fin 0.
Proof.
  apply (kl_dirichlet_uniform_zero _ _ 1 2).
  - split; [reflexivity |]. repeat constructor.
  - lia.
  - constructor; [| constructor].
    constructor; [by right | constructor; [by left | constructor]].
  - exact I.
  - exact I.
  - exact I.
  - exact I.
Defined.

End Losses.

(* ================================================================== *)
(** * Tensors over the reals *)
(* ================================================================== *)

Module Tensor.

Local Open Scope R_scope.

(** The last axis, and the last two axes. *)
Definition vec : Type := list R.
Definition matrix : Type := list vec.

(** [k] leading axes around a value of type [A]: a tensor of shape
    (b1, ..., bk, N, D) is a [nest k matrix]. *)
Fixpoint nest (k : nat) (A : Type) : Type :=
  match k with
  | O => A
  | S k' => list (nest k' A)
  end.

Fixpoint nmap {A B : Type} (k : nat) (f : A -> B) : nest k A -> nest k B :=
  match k return nest k A -> nest k B with
  | O => f
  | S k' => map (nmap k' f)
  end.

(** A layer applied under the leading axes; it fails when it fails
    anywhere. *)
Fixpoint nmapM {A B : Type} (k : nat) (f : A -> option B)
  : nest k A -> option (nest k B) :=
  match k return nest k A -> option (nest k B) with
  | O => f
  | S k' => mapM (nmapM k' f)
  end.

(** The leading axes have the sizes [lead] and every leaf satisfies [P]. *)
Fixpoint nshape {A : Type} (k : nat) (P : A -> Prop) (lead : list nat)
  : nest k A -> Prop :=
  match k return nest k A -> Prop with
  | O => fun a => lead = [] /\ P a
  | S k' => fun l =>
      match lead with
      | [] => False
      | n :: lead' => length l = n /\ Forall (nshape k' P lead') l
      end
  end.

(** A matrix of shape (N, D). *)
Definition mat_shape (N D : nat) (m : matrix) : Prop :=
  length m = N /\ Forall (fun row => length row = D) m.

Definition vsum (v : vec) : R := foldr Rplus 0 v.

(** [keras.ops.mean] of a vector.  On the empty vector Keras gives NaN and
    this gives zero: what is proved of a mean is proved for vectors that
    are not empty, or does not depend on its value. *)
Definition vmean (v : vec) : R := vsum v / INR (length v).

Definition vscale (c : R) (v : vec) : vec := map (Rmult c) v.

(** Element-wise operations of two vectors of one length; the shorter
    length is kept otherwise, see the checked versions below. *)
Definition vadd (a b : vec) : vec := zip_with Rplus a b.
Definition vsub (a b : vec) : vec := zip_with Rminus a b.
Definition vneg (a : vec) : vec := map Ropp a.

(** Element-wise sum of two tensors; a shape mismatch is an error. *)
Definition vadd_checked (a b : vec) : option vec :=
  if decide (length a = length b) then Some (vadd a b) else None.

Definition madd_checked (a b : matrix) : option matrix :=
  if decide (length a = length b)
  then mapM (fun ab => vadd_checked ab.1 ab.2) (zip a b)
  else None.

(** [ops.expand_dims(v, axis=-2)]: a vector becomes a one-row matrix. *)
Definition expand_dims_m2 (v : vec) : matrix := [v].

(** [ops.tile(m, [1, ..., n, 1])]: [n] copies along the axis before the
    last. *)
Definition tile_m2 (n : nat) (m : matrix) : matrix := concat (replicate n m).

(** [ops.concatenate([a, b], axis=-1)]: the rows are joined; the other
    axes must agree. *)
Definition concatenate_last (a b : matrix) : option matrix :=
  if decide (length a = length b) then Some (zip_with app a b) else None.

(** The elements of a list taken in the order of the indices [p]; with [p]
    a permutation of [0 .. length l - 1] this is the list permuted. *)
Definition apply_perm {A : Type} (p : list nat) (l : list A) : list A :=
  omap (fun i => l !! i) p.

(** Evaluation that leaves the operations on reals in place. *)
Ltac eval_reals :=
  cbv -[Rplus Rmult Rminus Rdiv Rinv Ropp IZR INR sqrt ln PI Rabs].

(** ** Lists under [mapM] *)

Lemma mapM_cons {A B : Type} (f : A -> option B) (x : A) (l : list A) :
  mapM f (x :: l) =
  match f x with
  | Some y => match mapM f l with Some k => Some (y :: k) | None => None end
  | None => None
  end.
Proof. reflexivity. Qed.

Lemma mapM_Forall_Some {A B : Type} (f : A -> option B) (P : A -> Prop)
    (Q : B -> Prop) (l : list A) :
  (forall x, P x -> exists y, f x = Some y /\ Q y) ->
  Forall P l ->
  exists k, mapM f l = Some k /\ Forall Q k /\ length k = length l.
Proof.
  intros Hf. induction 1 as [| x l Hx _ (k & Hk & HQ & Hlen)].
  - exists []. by repeat split.
  - destruct (Hf x Hx) as (y & Hy & HQy).
    exists (y :: k). rewrite mapM_cons, Hy, Hk.
    repeat split; [by constructor | by simpl; rewrite Hlen].
Qed.

(** ** Permutations given by their indices *)

Lemma apply_perm_cons {A : Type} (i : nat) (p : list nat) (l : list A) :
  apply_perm (i :: p) l =
  match l !! i with Some x => x :: apply_perm p l | None => apply_perm p l end.
Proof. reflexivity. Qed.

Lemma apply_perm_fmap {A B : Type} (f : A -> B) (p : list nat) (l : list A) :
  apply_perm p (f <$> l) = f <$> apply_perm p l.
Proof.
  induction p as [| i p IH]; [reflexivity |].
  rewrite !apply_perm_cons, list_lookup_fmap, IH. by destruct (l !! i).
Qed.

Lemma omap_fmap_compose {A B C : Type} (f : B -> option C) (g : A -> B) (l : list A) :
  omap f (g <$> l) = omap (fun x => f (g x)) l.
Proof.
  induction l as [| x l IH]; [reflexivity |].
  csimpl. by rewrite IH.
Qed.

Lemma apply_perm_seq {A : Type} (l : list A) :
  apply_perm (seq 0 (length l)) l = l.
Proof.
  unfold apply_perm. induction l as [| x l IH]; [reflexivity |].
  csimpl. f_equal. rewrite <- fmap_S_seq, omap_fmap_compose. exact IH.
Qed.

Lemma apply_perm_Permutation {A : Type} (p : list nat) (l : list A) :
  p ≡ₚ seq 0 (length l) -> apply_perm p l ≡ₚ l.
Proof.
  intros Hp. rewrite <- (apply_perm_seq l) at 2.
  unfold apply_perm. by rewrite Hp.
Qed.

Lemma apply_perm_length {A : Type} (p : list nat) (l : list A) :
  p ≡ₚ seq 0 (length l) -> length (apply_perm p l) = length l.
Proof. intros Hp. by rewrite (apply_perm_Permutation p l Hp). Qed.

Lemma apply_perm_mapM {A B : Type} (f : A -> option B) (p : list nat) (l : list A) :
  p ≡ₚ seq 0 (length l) ->
  mapM f (apply_perm p l) = apply_perm p <$> mapM f l.
Proof.
  intros Hp. destruct (mapM f l) as [k |] eqn:Hk; simpl.
  - apply mapM_Some_1 in Hk. apply mapM_Some_2.
    pose proof Hk as Hlen. apply Forall2_length in Hlen.
    clear Hp. induction p as [| i p IH]; [constructor |].
    rewrite !apply_perm_cons.
    destruct (l !! i) as [x |] eqn:Hx.
    + destruct (Forall2_lookup_l _ _ _ _ _ Hk Hx) as (y & -> & Hy).
      by constructor.
    + apply lookup_ge_None in Hx. rewrite Hlen in Hx.
      apply lookup_ge_None in Hx. by rewrite Hx.
  - apply mapM_None. apply mapM_None in Hk.
    apply Exists_exists in Hk as (x & Hin & Hx).
    apply Exists_exists. exists x. split; [| exact Hx].
    by rewrite (apply_perm_Permutation p l Hp).
Qed.

Lemma apply_perm_zip {A B : Type} (p : list nat) (a : list A) (b : list B) :
  length a = length b ->
  zip (apply_perm p a) (apply_perm p b) = apply_perm p (zip a b).
Proof.
  intros Hlen. induction p as [| i p IH]; [reflexivity |].
  rewrite !apply_perm_cons.
  rewrite lookup_zip_with.
  destruct (a !! i) as [x |] eqn:Hx; simpl.
  - destruct (b !! i) as [y |] eqn:Hy; simpl.
    + f_equal. exact IH.
    + apply lookup_lt_Some in Hx. apply lookup_ge_None in Hy. lia.
  - destruct (b !! i) as [y |] eqn:Hy; simpl; [| exact IH].
    apply lookup_lt_Some in Hy. apply lookup_ge_None in Hx. lia.
Qed.

Lemma apply_perm_replicate {A : Type} (p : list nat) (n : nat) (x : A) :
  p ≡ₚ seq 0 n -> apply_perm p (replicate n x) = replicate n x.
Proof.
  intros Hp.
  assert (Hlen : length p = n) by (by rewrite Hp, length_seq).
  assert (Hall : Forall (fun i => i < n)%nat p).
  { rewrite Hp. apply Forall_seq. lia. }
  assert (Hgen : apply_perm p (replicate n x) = replicate (length p) x).
  { clear Hp Hlen. induction Hall as [| i q Hi _ IH]; [reflexivity |].
    rewrite apply_perm_cons, (lookup_replicate_2 n x i Hi), IH. reflexivity. }
  by rewrite Hgen, Hlen.
Qed.

Lemma tile_expand_dims (n : nat) (v : vec) :
  tile_m2 n (expand_dims_m2 v) = replicate n v.
Proof.
  unfold tile_m2, expand_dims_m2. induction n as [| n IH]; [reflexivity |].
  simpl. by rewrite IH.
Qed.

Lemma concatenate_last_perm (p : list nat) (a b : matrix) :
  p ≡ₚ seq 0 (length a) -> length a = length b ->
  concatenate_last (apply_perm p a) (apply_perm p b) =
  apply_perm p <$> concatenate_last a b.
Proof.
  intros Hp Hlen. unfold concatenate_last.
  rewrite !apply_perm_length by (by rewrite <- ?Hlen).
  destruct (decide (length a = length b)); [| done]. simpl. f_equal.
  rewrite !(zip_with_zip app). rewrite apply_perm_zip by done.
  by rewrite apply_perm_fmap.
Qed.

Lemma madd_checked_perm (p : list nat) (a b : matrix) :
  p ≡ₚ seq 0 (length a) -> length a = length b ->
  madd_checked (apply_perm p a) (apply_perm p b) =
  apply_perm p <$> madd_checked a b.
Proof.
  intros Hp Hlen. unfold madd_checked.
  rewrite !apply_perm_length by (by rewrite <- ?Hlen).
  destruct (decide (length a = length b)); [| done].
  rewrite apply_perm_zip by done.
  apply apply_perm_mapM. by rewrite length_zip, <- Hlen, Nat.min_id.
Qed.

(** ** Leading axes *)

Lemma nmapM_shape {A B : Type} (f : A -> option B) (P : A -> Prop)
    (Q : B -> Prop) (k : nat) :
  (forall a, P a -> exists b, f a = Some b /\ Q b) ->
  forall (lead : list nat) (t : nest k A),
    nshape k P lead t ->
    exists out, nmapM k f t = Some out /\ nshape k Q lead out.
Proof.
  intros Hf. induction k as [| k IH]; intros lead t Ht.
  - destruct Ht as [-> Ha]. destruct (Hf t Ha) as (b & Hb & HQ).
    exists b. by repeat split.
  - destruct lead as [| n lead]; [contradiction |].
    destruct Ht as [Hlen Hall].
    destruct (mapM_Forall_Some (nmapM k f) (nshape k P lead) (nshape k Q lead) t)
      as (out & Hout & HQ & Hl); [by apply IH | exact Hall |].
    exists out. split; [exact Hout |]. split; [exact (eq_trans Hl Hlen) | exact HQ].
Qed.

Lemma nmapM_nmap {A B : Type} (f : A -> option B) (g : A -> A) (g' : B -> B)
    (P : A -> Prop) (k : nat) :
  (forall a, P a -> f (g a) = g' <$> f a) ->
  forall (lead : list nat) (t : nest k A),
    nshape k P lead t ->
    nmapM k f (nmap k g t) = nmap k g' <$> nmapM k f t.
Proof.
  intros Hf. induction k as [| k IH]; intros lead t Ht.
  - destruct Ht as [_ Ha]. by apply Hf.
  - destruct lead as [| n lead]; [contradiction |].
    destruct Ht as [_ Hall]. simpl nmapM. simpl nmap.
    induction Hall as [| x t Hx _ IHt]; [reflexivity |].
    rewrite map_cons, !mapM_cons, (IH lead x Hx), IHt.
    destruct (nmapM k f x); [| reflexivity].
    destruct (mapM (nmapM k f) t); reflexivity.
Qed.

End Tensor.

(* ================================================================== *)
(** * The Keras layers the sources build on *)
(* ================================================================== *)

Module Keras.
Import Tensor.

Local Open Scope R_scope.

(** A built [keras.layers.Dense]: the kernel has one row per input
    feature and [units] columns. *)
Record Dense : Type := {
  units : nat;
  kernel : list vec;
  bias : vec;
  activation : R -> R;
}.

(** [x . W] for a kernel given by its rows. *)
Definition vecmat (n : nat) (x : vec) (W : list vec) : vec :=
  foldr (fun xw acc => vadd (vscale xw.1 xw.2) acc) (replicate n 0) (zip x W).

(** The layer on one feature vector; Keras refuses an input whose width is
    not the one the layer was built for. *)
Definition dense_call (d : Dense) (x : vec) : option vec :=
  if decide (length x = length (kernel d))
  then Some (map (activation d) (vadd (vecmat (units d) x (kernel d)) (bias d)))
  else None.

(** [n] values of an indexed family of weights. *)
Definition tabulate {A : Type} (f : nat -> A) (n : nat) : list A :=
  map f (seq 0 n).

(** The layer as Keras builds it on first use, for inputs of width
    [input_dim], with the weights [w] and [b]. *)
Definition dense_build (n : nat) (act : R -> R) (w : nat -> nat -> R)
    (b : nat -> R) (input_dim : nat) : Dense :=
  {| units := n;
     kernel := tabulate (fun i => tabulate (w i) n) input_dim;
     bias := tabulate b n;
     activation := act |}.

(** A dense layer, plain or wrapped in [layers.SpectralNormalization]. *)
Inductive layer : Type :=
| LDense (d : Dense)
| LSpectralNormalization (d : Dense).

Section Layers.

(** The spectral-norm estimate of the wrapper, a Keras internal. *)
Variable spectral_norm : list vec -> R.

Definition normalized (d : Dense) : Dense :=
  {| units := units d;
     kernel := map (map (fun w => w / spectral_norm (kernel d))) (kernel d);
     bias := bias d;
     activation := activation d |}.

Definition layer_call (l : layer) (x : vec) : option vec :=
  match l with
  | LDense d => dense_call d x
  | LSpectralNormalization d => dense_call (normalized d) x
  end.

(** [keras.Sequential]: the layers one after the other. *)
Definition sequential_call (layers : list layer) (x : vec) : option vec :=
  foldl (fun acc l => acc ≫= layer_call l) (Some x) layers.

End Layers.

(** A built [layers.LayerNormalization] over the last axis. *)
Record LayerNormalization : Type := {
  gamma : vec;
  beta : vec;
  epsilon : R;
}.

Definition layer_norm_call (l : LayerNormalization) (x : vec) : option vec :=
  if decide (length x = length (gamma l) /\ length x = length (beta l))
  then
    let m := vmean x in
    let v := vmean (map (fun xi => (xi - m) * (xi - m)) x) in
    Some (vadd (zip_with Rmult
                  (map (fun xi => (xi - m) / sqrt (v + epsilon l)) x)
                  (gamma l))
               (beta l))
  else None.

Definition layer_norm_build (g b : nat -> R) (eps : R) (width : nat)
  : LayerNormalization :=
  {| gamma := tabulate g width; beta := tabulate b width; epsilon := eps |}.

(** ** Widths of the built layers *)

Lemma length_tabulate {A : Type} (f : nat -> A) (n : nat) : length (tabulate f n) = n.
Proof. unfold tabulate. by rewrite length_map, length_seq. Qed.

Lemma Forall_tabulate {A : Type} (P : A -> Prop) (f : nat -> A) (n : nat) :
  (forall i, (i < n)%nat -> P (f i)) -> Forall P (tabulate f n).
Proof.
  intros H. unfold tabulate. apply Forall_fmap, Forall_seq. intros i Hi. apply H. lia.
Qed.

Lemma vecmat_length (n : nat) (x : vec) (W : list vec) :
  Forall (fun row => length row = n) W -> length (vecmat n x W) = n.
Proof.
  intros HW. unfold vecmat. revert x.
  induction HW as [| w W Hw _ IH]; intros x.
  - destruct x; simpl; apply length_replicate.
  - destruct x as [| xi x]; simpl; [apply length_replicate |].
    unfold vadd, vscale. rewrite length_zip_with, length_map, Hw.
    specialize (IH x). unfold vadd, vscale in IH. rewrite IH. apply Nat.min_id.
Qed.

Definition dense_shape (D n : nat) (d : Dense) : Prop :=
  length (kernel d) = D /\ Forall (fun row => length row = n) (kernel d) /\
  length (bias d) = n /\ units d = n.

Lemma dense_call_shape (D n : nat) (d : Dense) (x : vec) :
  dense_shape D n d -> length x = D ->
  exists y, dense_call d x = Some y /\ length y = n.
Proof.
  intros (HD & Hrows & Hb & Hu) Hx. unfold dense_call.
  rewrite decide_True by congruence.
  eexists; split; [reflexivity |].
  unfold vadd. rewrite length_map, length_zip_with, Hu, vecmat_length, Hb by done.
  apply Nat.min_id.
Qed.

Lemma dense_build_shape (n : nat) (act : R -> R) w b (D : nat) :
  dense_shape D n (dense_build n act w b D).
Proof.
  unfold dense_shape, dense_build; simpl.
  rewrite !length_tabulate. repeat split.
  apply Forall_tabulate. intros i _. apply length_tabulate.
Qed.

Lemma normalized_shape sn (D n : nat) (d : Dense) :
  dense_shape D n d -> dense_shape D n (normalized sn d).
Proof.
  intros (HD & Hrows & Hb & Hu). unfold dense_shape, normalized; simpl.
  rewrite length_map. repeat split; try done.
  apply Forall_fmap. eapply List.Forall_impl; [| exact Hrows].
  intros row Hrow. simpl. by rewrite length_map.
Qed.

Definition layer_shape (D n : nat) (l : layer) : Prop :=
  match l with LDense d | LSpectralNormalization d => dense_shape D n d end.

Lemma layer_call_shape sn (D n : nat) (l : layer) (x : vec) :
  layer_shape D n l -> length x = D ->
  exists y, layer_call sn l x = Some y /\ length y = n.
Proof.
  destruct l as [d | d]; simpl; intros Hd Hx.
  - by apply (dense_call_shape D n).
  - apply (dense_call_shape D n); [by apply normalized_shape | done].
Qed.

Lemma sequential_call_app sn (l1 l2 : list layer) (x : vec) :
  sequential_call sn (l1 ++ l2) x =
  sequential_call sn l1 x ≫= sequential_call sn l2.
Proof.
  unfold sequential_call. rewrite foldl_app.
  generalize (foldl (fun acc l => acc ≫= layer_call sn l) (Some x) l1).
  intros o. destruct o as [y |]; [reflexivity |].
  simpl. induction l2 as [| l l2 IH]; [reflexivity | exact IH].
Qed.

Lemma layer_norm_call_shape g b eps (U : nat) (x : vec) :
  length x = U ->
  exists y, layer_norm_call (layer_norm_build g b eps U) x = Some y /\ length y = U.
Proof.
  intros Hx. unfold layer_norm_call, layer_norm_build; simpl.
  rewrite !length_tabulate. rewrite decide_True by done.
  eexists; split; [reflexivity |].
  unfold vadd. rewrite !length_zip_with, length_map, !length_tabulate, Hx. lia.
Qed.

End Keras.

(* ================================================================== *)
(** * bayesflow/experimental/networks/deep_set/equivariant_module.py *)
(* ================================================================== *)

Module DeepSet.
Import Tensor Keras.

Local Open Scope R_scope.

(** The constructor arguments that [EquivariantModule] itself reads; the
    others go to the invariant module. *)
Record config : Type := {
  num_dense_equivariant : nat;
  units_equivariant : nat;
  units_invariant_outer : nat;
  cfg_activation : R -> R;
  layer_norm : bool;
  spectral_normalization : bool;
}.

(** The weights of the module, indexed: a trained module and a freshly
    initialised one differ in these values only. *)
Record weights : Type := {
  w_projection : nat -> nat -> R;
  b_projection : nat -> R;
  w_fc : nat -> nat -> nat -> R;
  b_fc : nat -> nat -> R;
  w_gamma : nat -> R;
  w_beta : nat -> R;
  w_epsilon : R;
}.

(** A dense layer as [__init__] makes it: its units, its activation, and
    whether it is wrapped in [SpectralNormalization].  Keras gives it
    weights when it is first called. *)
Record layer_spec : Type := {
  ls_units : nat;
  ls_activation : R -> R;
  ls_spectral : bool;
}.

(** The attributes set by [__init__].  [u_invariant_module] is the call of
    the [InvariantModule] instance; that class is not among the sources,
    its contract is section 4.1 of the specification, and the width of its
    summaries is the [units_outer] it is constructed with. *)
Record unbuilt : Type := {
  u_invariant_module : bool -> matrix -> option vec;
  u_summary_width : nat;
  u_input_projection : layer_spec;
  u_equivariant_fc : list layer_spec;
  u_ln : bool;
}.

(** The state of a built [EquivariantModule]. *)
Record EquivariantModule : Type := {
  invariant_module : bool -> matrix -> option vec;
  input_projection : Dense;
  equivariant_fc : list layer;
  ln : option LayerNormalization;
}.

(** [__init__]: the projection is [Dense(units_equivariant)] without
    activation, and the loop adds [num_dense_equivariant] equal layers to
    [EquivariantFC]. *)
Definition __init__ (cfg : config) (inv : bool -> matrix -> option vec)
  : unbuilt :=
  {| u_invariant_module := inv;
     u_summary_width := units_invariant_outer cfg;
     u_input_projection :=
       {| ls_units := units_equivariant cfg; ls_activation := fun x => x;
          ls_spectral := false |};
     u_equivariant_fc :=
       replicate (num_dense_equivariant cfg)
                 {| ls_units := units_equivariant cfg;
                    ls_activation := cfg_activation cfg;
                    ls_spectral := spectral_normalization cfg |};
     u_ln := layer_norm cfg |}.

(** The layers of a [Sequential] built for inputs of width [input_dim]:
    every layer is built for the width the one before it returns. *)
Fixpoint build_layers (w : weights) (i input_dim : nat)
    (specs : list layer_spec) : list layer :=
  match specs with
  | [] => []
  | s :: rest =>
      let d := dense_build (ls_units s) (ls_activation s) (w_fc w i) (b_fc w i)
                 input_dim in
      (if ls_spectral s then LSpectralNormalization d else LDense d)
        :: build_layers w (S i) (ls_units s) rest
  end.

(** [build(input_shape)] runs [call] on zeros of that shape, and each
    layer is built for the width it is given there: the projection for the
    feature width [D] of the input, [EquivariantFC] for the projected
    element joined with the invariant summary, the normalization for the
    width of the projection. *)
Definition build (self : unbuilt) (w : weights) (D : nat) : EquivariantModule :=
  let U := ls_units (u_input_projection self) in
  {| invariant_module := u_invariant_module self;
     input_projection :=
       dense_build U (ls_activation (u_input_projection self))
                   (w_projection w) (b_projection w) D;
     equivariant_fc :=
       build_layers w 0 (U + u_summary_width self) (u_equivariant_fc self);
     ln := if u_ln self
           then Some (layer_norm_build (w_gamma w) (w_beta w) (w_epsilon w) U)
           else None |}.

Section Module.

Variable spectral_norm : list vec -> R.

(** [call] on one set, a tensor of shape (N, D). *)
Definition call_set (self : EquivariantModule) (training : bool)
    (input_set : matrix) : option matrix :=
  input_set ← mapM (dense_call (input_projection self)) input_set;
  let set_size := length input_set in
  invariant_summary ← invariant_module self training input_set;
  let invariant_summary := expand_dims_m2 invariant_summary in
  let invariant_summary := tile_m2 set_size invariant_summary in
  output_set ← concatenate_last input_set invariant_summary;
  fc_out ← mapM (sequential_call spectral_norm (equivariant_fc self)) output_set;
  output_set ← madd_checked input_set fc_out;
  match ln self with
  | Some l => mapM (layer_norm_call l) output_set
  | None => Some output_set
  end.

(** [call] on a tensor of shape (b1, ..., bk, N, D), with the keyword
    arguments [kwargs].  The layers act on the last axis and the pooling
    and the tiling on the axis before it, so the sets under the leading
    axes are transformed one by one. *)
Definition call (self : EquivariantModule) (k : nat)
    (input_set : nest k matrix) (kwargs : gmap string bool)
  : option (nest k matrix) :=
  let training := default false (kwargs !! "training") in
  nmapM k (call_set self training) input_set.

End Module.

(** Modelled from the spec: the pooling of the class [InvariantModule]
    (invariant_module.py, not among the sources).  Section 4.1 names the
    arithmetic mean over the set axis as the default.  On an empty set
    Keras gives NaN and this gives zeros; the module output is the empty
    set in both cases. *)
Definition mean_pool (width : nat) (s : matrix) : vec :=
  vscale (/ INR (length s)) (foldr vadd (replicate width 0) s).

(** Modelled from the spec: the call of the class [InvariantModule]
    (invariant_module.py, not among the sources).  Section 4.1: an inner
    transform of every element, the pooling over the set axis, an outer
    transform of the pooled vector.  Dropout is left out. *)
Definition invariant_module_model (inner outer : Dense) (training : bool)
    (s : matrix) : option vec :=
  h ← mapM (dense_call inner) s;
  dense_call outer (mean_pool (units inner) h).

(** ** The invariant module of the specification *)

Lemma vadd_left_comm (a b c : vec) : vadd a (vadd b c) = vadd b (vadd a c).
Proof.
  unfold vadd. revert b c. induction a as [| x a IH]; intros [| y b] [| z c];
    simpl; try reflexivity.
  f_equal; [lra | apply IH].
Qed.

Lemma mean_pool_Permutation (n : nat) (s s' : matrix) :
  s ≡ₚ s' -> mean_pool n s = mean_pool n s'.
Proof.
  intros Hs. unfold mean_pool. rewrite (Permutation_length Hs). f_equal.
  induction Hs as [| x s s' _ IH | x y s | s s' s'' _ IH1 _ IH2]; simpl.
  - reflexivity.
  - by rewrite IH.
  - apply vadd_left_comm.
  - by rewrite IH1.
Qed.

Lemma mapM_Permutation {A B : Type} (f : A -> option B) (l l' : list A) :
  l ≡ₚ l' ->
  match mapM f l, mapM f l' with
  | Some k, Some k' => k ≡ₚ k'
  | None, None => True
  | _, _ => False
  end.
Proof.
  induction 1 as [| x l l' _ IH | x y l | l l' l'' _ IH1 _ IH2].
  - change (@nil B ≡ₚ @nil B). reflexivity.
  - rewrite !mapM_cons. destruct (f x); [| exact I].
    destruct (mapM f l), (mapM f l'); try done. by constructor.
  - rewrite !mapM_cons. destruct (f x), (f y); try exact I;
      destruct (mapM f l); try exact I. apply perm_swap.
  - destruct (mapM f l), (mapM f l'), (mapM f l''); try done. by etrans.
Qed.

Lemma invariant_module_model_invariant (inner outer : Dense) (training : bool)
    (s s' : matrix) :
  s ≡ₚ s' ->
  invariant_module_model inner outer training s =
  invariant_module_model inner outer training s'.
Proof.
  intros Hs. unfold invariant_module_model.
  pose proof (mapM_Permutation (dense_call inner) s s' Hs) as Hm.
  destruct (mapM (dense_call inner) s), (mapM (dense_call inner) s'); try done.
  cbn [mbind option_bind]. by rewrite (mean_pool_Permutation _ _ _ Hm).
Qed.

Lemma mean_pool_length (n : nat) (s : matrix) :
  Forall (fun row => length row = n) s -> length (mean_pool n s) = n.
Proof.
  intros Hs. unfold mean_pool, vscale. rewrite length_map.
  induction Hs as [| row s Hrow _ IH]; simpl; [apply length_replicate |].
  unfold vadd in *. rewrite length_zip_with, Hrow, IH. apply Nat.min_id.
Qed.

Lemma invariant_module_model_width (D n r : nat) (inner outer : Dense)
    (training : bool) (s : matrix) :
  dense_shape D n inner -> dense_shape n r outer ->
  Forall (fun row => length row = D) s ->
  exists v, invariant_module_model inner outer training s = Some v /\ length v = r.
Proof.
  intros Hin Hout Hs. unfold invariant_module_model.
  destruct (mapM_Forall_Some (dense_call inner)
              (fun row => length row = D) (fun row => length row = n) s)
    as (h & Hh & Hhw & _); [| exact Hs |].
  { intros x Hx. by apply (dense_call_shape D n). }
  rewrite Hh; cbn [mbind option_bind].
  apply (dense_call_shape n r); [exact Hout |].
  destruct Hin as (_ & _ & _ & ->). by apply mean_pool_length.
Qed.

(** ** Permuting one set *)

Section Equivariance.
Variable spectral_norm : list vec -> R.
Variable self : EquivariantModule.
Hypothesis invariant_module_invariant :
  forall (training : bool) (s s' : matrix),
    s ≡ₚ s' -> invariant_module self training s = invariant_module self training s'.

Lemma call_set_perm (training : bool) (p : list nat) (X : matrix) :
  p ≡ₚ seq 0 (length X) ->
  call_set spectral_norm self training (apply_perm p X) =
  apply_perm p <$> call_set spectral_norm self training X.
Proof.
  intros Hp. unfold call_set.
  rewrite apply_perm_mapM by done.
  destruct (mapM (dense_call (input_projection self)) X) as [P |] eqn:HP;
    [| reflexivity].
  simpl.
  assert (HpP : p ≡ₚ seq 0 (length P)).
  { by rewrite <- (length_mapM _ _ _ HP). }
  rewrite (invariant_module_invariant training (apply_perm p P) P)
    by (by apply apply_perm_Permutation).
  destruct (invariant_module self training P) as [s |]; [| reflexivity].
  simpl. rewrite apply_perm_length by done.
  rewrite !tile_expand_dims.
  rewrite <- (apply_perm_replicate p (length P) s) at 1 by done.
  rewrite concatenate_last_perm by (by rewrite ?length_replicate).
  destruct (concatenate_last P (replicate (length P) s)) as [cat |] eqn:Hcat;
    [| reflexivity].
  simpl.
  assert (Hlcat : length cat = length P).
  { unfold concatenate_last in Hcat. case_decide; [| done].
    injection Hcat as <-. rewrite length_zip_with, length_replicate.
    apply Nat.min_id. }
  rewrite apply_perm_mapM by (by rewrite Hlcat).
  destruct (mapM _ cat) as [h |] eqn:Hh; [| reflexivity].
  simpl.
  assert (Hlh : length P = length h).
  { by rewrite <- (length_mapM _ _ _ Hh). }
  rewrite madd_checked_perm by done.
  destruct (madd_checked P h) as [o |] eqn:Ho; [| reflexivity].
  simpl.
  destruct (ln self) as [l |]; [| reflexivity].
  apply apply_perm_mapM.
  unfold madd_checked in Ho. case_decide; [| done].
  apply length_mapM in Ho. rewrite <- Ho, length_zip, <- Hlh, Nat.min_id. done.
Qed.
End Equivariance.

(** ** Shapes through one set *)

Lemma sequential_call_cons (spectral_norm : list vec -> R) (l : layer)
    (layers : list layer) (x : vec) :
  sequential_call spectral_norm (l :: layers) x =
  layer_call spectral_norm l x ≫= sequential_call spectral_norm layers.
Proof. apply (sequential_call_app spectral_norm [l] layers x). Qed.

Lemma build_layers_shape (spectral_norm : list vec -> R) (w : weights)
    (U : nat) (specs : list layer_spec) :
  specs <> [] ->
  Forall (fun s => ls_units s = U) specs ->
  forall (i input_dim : nat) (x : vec),
    length x = input_dim ->
    exists y,
      sequential_call spectral_norm (build_layers w i input_dim specs) x = Some y /\
      length y = U.
Proof.
  intros Hne Hall. induction Hall as [| s rest Hs Hrest IH]; [done |].
  intros i input_dim x Hx. simpl build_layers. rewrite sequential_call_cons.
  destruct (layer_call_shape spectral_norm input_dim U
              (if ls_spectral s
               then LSpectralNormalization
                      (dense_build (ls_units s) (ls_activation s) (w_fc w i)
                         (b_fc w i) input_dim)
               else LDense
                      (dense_build (ls_units s) (ls_activation s) (w_fc w i)
                         (b_fc w i) input_dim)) x)
    as (y & Hy & Hly); [| exact Hx |].
  { rewrite <- Hs. destruct (ls_spectral s); simpl; apply dense_build_shape. }
  rewrite Hy. cbn [mbind option_bind].
  destruct rest as [| s' rest'].
  - exists y. by split.
  - rewrite Hs. apply IH; [done | exact Hly].
Qed.

Section Shape.
Variable spectral_norm : list vec -> R.
Variable cfg : config.
Variable inv : bool -> matrix -> option vec.
Variable w : weights.
Variable D : nat.

Let U := units_equivariant cfg.
Let Rw := units_invariant_outer cfg.
Let self := build (__init__ cfg inv) w D.

Hypothesis invariant_module_width :
  forall (training : bool) (s : matrix),
    Forall (fun row => length row = U) s ->
    exists v, inv training s = Some v /\ length v = Rw.
Hypothesis at_least_one_layer : (1 <= num_dense_equivariant cfg)%nat.

Lemma equivariant_fc_shape (x : vec) :
  length x = (U + Rw)%nat ->
  exists y, sequential_call spectral_norm (equivariant_fc self) x = Some y /\
            length y = U.
Proof.
  intros Hx. unfold self, build, __init__. simpl.
  apply build_layers_shape; [| | exact Hx].
  - destruct (num_dense_equivariant cfg); [lia | done].
  - apply Forall_replicate. reflexivity.
Qed.

Lemma call_set_shape (training : bool) (N : nat) (X : matrix) :
  mat_shape N D X ->
  exists out, call_set spectral_norm self training X = Some out /\ mat_shape N U out.
Proof.
  intros [HN HD]. unfold call_set.
  destruct (mapM_Forall_Some (dense_call (input_projection self))
              (fun row => length row = D) (fun row => length row = U) X)
    as (P & HP & HPw & HPl); [| exact HD |].
  { intros x Hx. apply (dense_call_shape D U); [| done].
    unfold self, build, __init__; simpl. apply dense_build_shape. }
  rewrite HP; cbn [mbind option_bind].
  destruct (invariant_module_width training P HPw) as (s & Hs & Hsl).
  change (invariant_module self training P) with (inv training P).
  rewrite Hs; cbn [mbind option_bind].
  rewrite tile_expand_dims. unfold concatenate_last.
  rewrite decide_True by (by rewrite length_replicate); cbn [mbind option_bind].
  destruct (mapM_Forall_Some
              (sequential_call spectral_norm (equivariant_fc self))
              (fun row => length row = (U + Rw)%nat) (fun row => length row = U)
              (zip_with app P (replicate (length P) s)))
    as (h & Hh & Hhw & Hhl).
  { intros x Hx. by apply equivariant_fc_shape. }
  { clear -HPw Hsl. induction HPw as [| row P Hrow _ IH]; [constructor |].
    simpl. constructor; [| exact IH]. rewrite length_app, Hrow, Hsl. done. }
  rewrite Hh; cbn [mbind option_bind].
  rewrite length_zip_with, length_replicate, Nat.min_id in Hhl.
  unfold madd_checked. rewrite decide_True by done.
  destruct (mapM_Forall_Some (fun ab : vec * vec => vadd_checked ab.1 ab.2)
              (fun ab => length ab.1 = U /\ length ab.2 = U)
              (fun row => length row = U) (zip P h))
    as (o & Ho & How & Hol).
  { intros [a b] [Ha Hb]; simpl in *. unfold vadd_checked.
    rewrite decide_True by congruence. eexists; split; [reflexivity |].
    unfold vadd. rewrite length_zip_with, Ha, Hb. apply Nat.min_id. }
  { clear -HPw Hhw. revert h Hhw. induction HPw as [| a P Ha _ IH]; intros h Hhw.
    - constructor.
    - destruct Hhw as [| b h Hb Hhw]; simpl; constructor; [done | by apply IH]. }
  rewrite Ho; cbn [mbind option_bind].
  assert (HoN : length o = N).
  { rewrite Hol, length_zip, <- Hhl, Nat.min_id. congruence. }
  change (ln self) with
    (if layer_norm cfg
     then Some (layer_norm_build (w_gamma w) (w_beta w) (w_epsilon w) U)
     else None).
  destruct (layer_norm cfg).
  - destruct (mapM_Forall_Some
                (layer_norm_call
                   (layer_norm_build (w_gamma w) (w_beta w) (w_epsilon w) U))
                (fun row => length row = U) (fun row => length row = U) o)
      as (out & Hout & Houtw & Houtl); [| exact How |].
    { intros x Hx. by apply layer_norm_call_shape. }
    exists out. split; [exact Hout |]. split; [congruence | exact Houtw].
  - exists o. split; [reflexivity |]. by split.
Qed.
End Shape.

(** The output of a built module exists and has the input's leading axes
    and set size, with [units_equivariant] features. *)
Lemma call_defined (spectral_norm : list vec -> R) (cfg : config)
    (inv : bool -> matrix -> option vec) (w : weights) (D k : nat)
    (lead : list nat) (N : nat) (X : nest k matrix) (kwargs : gmap string bool) :
  (forall (training : bool) (s : matrix),
      Forall (fun row => length row = units_equivariant cfg) s ->
      exists v, inv training s = Some v /\ length v = units_invariant_outer cfg) ->
  (1 <= num_dense_equivariant cfg)%nat ->
  nshape k (mat_shape N D) lead X ->
  exists out,
    call spectral_norm (build (__init__ cfg inv) w D) k X kwargs = Some out /\
    nshape k (mat_shape N (units_equivariant cfg)) lead out.
Proof.
  intros Hinv Hnum HS. unfold call.
  apply (nmapM_shape _ (mat_shape N D)); [| exact HS].
  intros m Hm. by apply call_set_shape.
Qed.

(** C10. For an input of shape (b1, ..., bk, N, D), whatever the feature
    width D, the module built for that width returns an output of shape
    (b1, ..., bk, N, units_equivariant): the residual sum is taken with the
    projected input, of width [units_equivariant], so D is not tied to the
    output width.  The module has at least one layer in [EquivariantFC] and
    its invariant module returns summaries of width
    [units_invariant_outer]. *)
Theorem call_output_shape (spectral_norm : list vec -> R) (cfg : config)
    (inv : bool -> matrix -> option vec) (w : weights) (D k : nat)
    (lead : list nat) (N : nat) (X : nest k matrix) (kwargs : gmap string bool) :
  (forall (training : bool) (s : matrix),
      Forall (fun row => length row = units_equivariant cfg) s ->
      exists v, inv training s = Some v /\ length v = units_invariant_outer cfg) ->
  (1 <= num_dense_equivariant cfg)%nat ->
  nshape k (mat_shape N D) lead X ->
  exists out,
    call spectral_norm (build (__init__ cfg inv) w D) k X kwargs = Some out /\
    nshape k (mat_shape N (units_equivariant cfg)) lead out.
Proof. apply call_defined. Qed.

(** C4. For a set tensor of shape (b1, ..., bk, N, D) and a permutation [p]
    of the N positions, the module built for width D returns an output on
    the tensor and on the permuted tensor, and the second is the first
    permuted by [p]; with or without layer normalization.  The invariant
    module gives one summary to a set and to its permutations.  Over the
    reals the equality is exact. *)
Theorem call_permutation_equivariant (spectral_norm : list vec -> R)
    (cfg : config) (inv : bool -> matrix -> option vec) (w : weights)
    (D k : nat) (lead : list nat) (N : nat) (p : list nat)
    (X : nest k matrix) (kwargs : gmap string bool) :
  (forall (training : bool) (s s' : matrix),
      s ≡ₚ s' -> inv training s = inv training s') ->
  (forall (training : bool) (s : matrix),
      Forall (fun row => length row = units_equivariant cfg) s ->
      exists v, inv training s = Some v /\ length v = units_invariant_outer cfg) ->
  (1 <= num_dense_equivariant cfg)%nat ->
  p ≡ₚ seq 0 N ->
  nshape k (mat_shape N D) lead X ->
  exists out,
    call spectral_norm (build (__init__ cfg inv) w D) k X kwargs = Some out /\
    call spectral_norm (build (__init__ cfg inv) w D) k (nmap k (apply_perm p) X) kwargs =
      Some (nmap k (apply_perm p) out).
Proof.
  intros Hperm Hwidth Hnum Hp HS.
  destruct (call_defined spectral_norm cfg inv w D k lead N X kwargs
              Hwidth Hnum HS) as (out & Hout & _).
  exists out. split; [exact Hout |].
  unfold call in *. cbv zeta in *.
  etrans; [apply (nmapM_nmap _ (apply_perm p) (apply_perm p) (mat_shape N D) k)
             with (lead := lead); [| exact HS] |].
  - intros m [Hm _]. apply call_set_perm; [exact Hperm | by rewrite Hm].
  - exact (f_equal (fmap (nmap k (apply_perm p))) Hout).
Qed.

(** ** A concrete module *)

Definition cfg0 : config :=
  {| num_dense_equivariant := 1; units_equivariant := 2;
     units_invariant_outer := 1; cfg_activation := fun x => x;
     layer_norm := true; spectral_normalization := false |}.

Definition w0 : weights :=
  {| w_projection := fun _ _ => 1; b_projection := fun _ => 0;
     w_fc := fun _ _ _ => 1; b_fc := fun _ _ => 0;
     w_gamma := fun _ => 1; w_beta := fun _ => 0; w_epsilon := / 1000 |}.

Definition inv0 : bool -> matrix -> option vec :=
  invariant_module_model
    (dense_build 2 (fun x => x) (fun _ _ => 1) (fun _ => 0) 2)
    (dense_build 1 (fun x => x) (fun _ _ => 1) (fun _ => 0) 2).

(** One batch element holding a set of two elements with three features. *)
Definition S0 : nest 1 matrix := [ [ [1; 2; 3]; [4; 5; 6] ] ].

Lemma inv0_width (training : bool) (s : matrix) :
  Forall (fun row => length row = units_equivariant cfg0) s ->
  exists v, inv0 training s = Some v /\ length v = units_invariant_outer cfg0.
Proof.
  apply (invariant_module_model_width 2 2 1); apply dense_build_shape.
Qed.

Lemma S0_shape : nshape 1 (mat_shape 2 3) [1%nat] S0.
Proof.
  simpl. split; [reflexivity |]. repeat constructor.
Qed.

Lemma call_output_shape_witness :
  exists out,
    call (fun _ => 1) (build (__init__ cfg0 inv0) w0 3) 1 S0 ∅ = Some out /\
    nshape 1 (mat_shape 2 2) [1%nat] out.
Proof.
  apply (call_output_shape (fun _ => 1) cfg0 inv0 w0 3 1 [1%nat] 2 S0 ∅).
  - exact inv0_width.
  - simpl. lia.
  - exact S0_shape.
Defined.

Lemma call_permutation_equivariant_witness :
  exists out,
    call (fun _ => 1) (build (__init__ cfg0 inv0) w0 3) 1 S0 ∅ = Some out /\
    call (fun _ => 1) (build (__init__ cfg0 inv0) w0 3) 1
         (nmap 1 (apply_perm [1%nat; 0%nat]) S0) ∅ =
      Some (nmap 1 (apply_perm [1%nat; 0%nat]) out).
Proof.
  apply (call_permutation_equivariant (fun _ => 1) cfg0 inv0 w0 3 1
           [1%nat] 2 [1%nat; 0%nat] S0 ∅).
  - intros training s s'. apply invariant_module_model_invariant.
  - exact inv0_width.
  - simpl. lia.
  - simpl. apply perm_swap.
  - exact S0_shape.
Defined.

(** ** Values of a small module *)

Definition cfg1 : config :=
  {| num_dense_equivariant := 1; units_equivariant := 1;
     units_invariant_outer := 1; cfg_activation := fun x => x;
     layer_norm := false; spectral_normalization := false |}.

Definition inv1 : bool -> matrix -> option vec :=
  invariant_module_model
    (dense_build 1 (fun x => x) (fun _ _ => 1) (fun _ => 0) 1)
    (dense_build 1 (fun x => x) (fun _ _ => 1) (fun _ => 0) 1).

(** All weights one, all biases zero, no normalization: the set {1, 3} has
    the summary 2, and an element [e] becomes [e + (e + 2)]. *)
Example call_two_elements :
  call (fun _ => 1) (build (__init__ cfg1 inv1) w0 1) 0 [[1]; [3]] ∅ =
  Some [[4]; [8]].
Proof. eval_reals. repeat f_equal; simpl; field. Qed.

Example call_two_elements_swapped :
  call (fun _ => 1) (build (__init__ cfg1 inv1) w0 1) 0 [[3]; [1]] ∅ =
  Some [[8]; [4]].
Proof. eval_reals. repeat f_equal; simpl; field. Qed.

(** An input whose width is not the one the module was built for is
    refused. *)
Example call_wrong_width :
  call (fun _ => 1) (build (__init__ cfg1 inv1) w0 1) 0 [[1; 2]] ∅ = None.
Proof. reflexivity. Qed.

(** ** One element at a time *)

(** What [call] does to one projected element [p] of a set with the
    invariant summary [summary]: the summary is joined to it, the result
    goes through [EquivariantFC] and is added to [p], then normalized. *)
Definition element_call (spectral_norm : list vec -> R)
    (self : EquivariantModule) (summary p : vec) : option vec :=
  f ← sequential_call spectral_norm (equivariant_fc self) (p ++ summary);
  o ← vadd_checked p f;
  match ln self with
  | Some l => layer_norm_call l o
  | None => Some o
  end.

Lemma zip_with_app_replicate (P : matrix) (s : vec) :
  zip_with app P (replicate (length P) s) = map (fun p => p ++ s) P.
Proof. induction P as [| p P IH]; [reflexivity |]. simpl. by rewrite IH. Qed.

Lemma mapM_map {A B C : Type} (f : B -> option C) (g : A -> B) (l : list A) :
  mapM f (map g l) = mapM (fun x => f (g x)) l.
Proof.
  induction l as [| x l IH]; [reflexivity |].
  rewrite map_cons, !mapM_cons, IH. reflexivity.
Qed.

Lemma mapM_Some_id {A : Type} (l : list A) : mapM Some l = Some l.
Proof.
  induction l as [| x l IH]; [reflexivity |]. by rewrite mapM_cons, IH.
Qed.

Lemma madd_checked_cons (p f : vec) (P h : matrix) :
  madd_checked (p :: P) (f :: h) =
  match vadd_checked p f with
  | Some o => match madd_checked P h with
              | Some os => Some (o :: os)
              | None => None
              end
  | None => None
  end.
Proof.
  unfold madd_checked. simpl length. simpl zip. rewrite mapM_cons. simpl fst. simpl snd.
  destruct (decide (length P = length h)) as [Heq | Hne].
  - rewrite decide_True by (by rewrite Heq). reflexivity.
  - rewrite decide_False by (intros H; apply Hne; by injection H).
    by destruct (vadd_checked p f).
Qed.

Lemma residual_elementwise (F g : vec -> option vec) (P : matrix) :
  (h ← mapM F P; o ← madd_checked P h; mapM g o) =
  mapM (fun p => f ← F p; o ← vadd_checked p f; g o) P.
Proof.
  induction P as [| p P IH]; [reflexivity |].
  rewrite !mapM_cons, <- IH.
  destruct (F p) as [f |]; [| reflexivity]. cbn [mbind option_bind].
  destruct (mapM F P) as [h |]; cbn [mbind option_bind].
  - rewrite madd_checked_cons.
    destruct (vadd_checked p f) as [o |]; [| reflexivity]. cbn [mbind option_bind].
    destruct (madd_checked P h) as [os |]; cbn [mbind option_bind].
    + by rewrite mapM_cons.
    + by destruct (g o).
  - by destruct (vadd_checked p f ≫= g).
Qed.

Lemma call_set_elementwise (spectral_norm : list vec -> R)
    (self : EquivariantModule) (training : bool) (X : matrix) :
  call_set spectral_norm self training X =
  P ← mapM (dense_call (input_projection self)) X;
  s ← invariant_module self training P;
  mapM (element_call spectral_norm self s) P.
Proof.
  unfold call_set.
  destruct (mapM (dense_call (input_projection self)) X) as [P |];
    [| reflexivity].
  cbn [mbind option_bind].
  destruct (invariant_module self training P) as [s |]; [| reflexivity].
  cbn [mbind option_bind].
  rewrite tile_expand_dims. unfold concatenate_last.
  rewrite decide_True by (by rewrite length_replicate).
  cbn [mbind option_bind].
  rewrite zip_with_app_replicate, mapM_map.
  unfold element_call. destruct (ln self) as [l |].
  - apply (residual_elementwise
             (fun p => sequential_call spectral_norm (equivariant_fc self) (p ++ s))
             (layer_norm_call l)).
  - rewrite <- (residual_elementwise
             (fun p => sequential_call spectral_norm (equivariant_fc self) (p ++ s))
             Some).
    destruct (mapM _ P) as [h |]; [| reflexivity]. cbn [mbind option_bind].
    destruct (madd_checked P h) as [o |]; [| reflexivity]. cbn [mbind option_bind].
    by rewrite mapM_Some_id.
Qed.

(** X13. The elements of a set act on each other through the invariant
    summary only: an element that occurs in two sets with the same summary
    gets the same output in both, whatever the other elements, the sizes
    and the positions. *)
Theorem call_set_interaction_through_summary (spectral_norm : list vec -> R)
    (self : EquivariantModule) (training : bool) (X X' P P' Y Y' : matrix)
    (i j : nat) (x : vec) :
  mapM (dense_call (input_projection self)) X = Some P ->
  mapM (dense_call (input_projection self)) X' = Some P' ->
  invariant_module self training P = invariant_module self training P' ->
  call_set spectral_norm self training X = Some Y ->
  call_set spectral_norm self training X' = Some Y' ->
  X !! i = Some x -> X' !! j = Some x ->
  Y !! i = Y' !! j.
Proof.
  intros HP HP' Hs HY HY' Hi Hj.
  rewrite call_set_elementwise, HP in HY. cbn [mbind option_bind] in HY.
  rewrite call_set_elementwise, HP' in HY'. cbn [mbind option_bind] in HY'.
  rewrite <- Hs in HY'.
  destruct (invariant_module self training P) as [s |]; [| discriminate HY].
  cbn [mbind option_bind] in HY, HY'.
  apply mapM_Some_1 in HP, HP', HY, HY'.
  destruct (Forall2_lookup_l _ _ _ _ _ HP Hi) as (p & Hp & Hxp).
  destruct (Forall2_lookup_l _ _ _ _ _ HP' Hj) as (p' & Hp' & Hxp').
  rewrite Hxp in Hxp'. injection Hxp' as <-.
  destruct (Forall2_lookup_l _ _ _ _ _ HY Hp) as (y & Hy & Hpy).
  destruct (Forall2_lookup_l _ _ _ _ _ HY' Hp') as (y' & Hy' & Hpy').
  rewrite Hpy in Hpy'. injection Hpy' as <-. exact (eq_trans Hy (eq_sym Hy')).
Qed.

(** X14. A module built for inputs of width [D] refuses a set that holds an
    element of another width. *)
Theorem call_wrong_width_refused (spectral_norm : list vec -> R) (cfg : config)
    (inv : bool -> matrix -> option vec) (w : weights) (D : nat)
    (X : matrix) (row : vec) (kwargs : gmap string bool) :
  row ∈ X -> length row <> D ->
  call spectral_norm (build (__init__ cfg inv) w D) 0 X kwargs = None.
Proof.
  intros Hin Hlen. unfold call. simpl nmapM. unfold call_set.
  assert (Hproj : mapM (dense_call (input_projection (build (__init__ cfg inv) w D))) X
                  = None).
  { apply mapM_None. apply Exists_exists. exists row. split; [by apply list_elem_of_In |].
    unfold dense_call. rewrite decide_False; [reflexivity |].
    simpl. unfold tabulate. by rewrite length_map, length_seq. }
  by rewrite Hproj.
Qed.

Lemma call_set_interaction_through_summary_witness :
  ([[4]; [8]] : matrix) !! 0%nat = ([[8]; [4]] : matrix) !! 1%nat.
Proof.
  apply (call_set_interaction_through_summary (fun _ => 1)
           (build (__init__ cfg1 inv1) w0 1) false
           [[1]; [3]] [[3]; [1]] [[1 * 1 + 0 + 0]; [3 * 1 + 0 + 0]]
           [[3 * 1 + 0 + 0]; [1 * 1 + 0 + 0]] [[4]; [8]] [[8]; [4]]
           0 1 [1]).
  - reflexivity.
  - reflexivity.
  - apply invariant_module_model_invariant, perm_swap.
  - eval_reals. repeat f_equal; simpl; field.
  - eval_reals. repeat f_equal; simpl; field.
  - reflexivity.
  - reflexivity.
Defined.

Lemma call_wrong_width_refused_witness :
  call (fun _ => 1) (build (__init__ cfg1 inv1) w0 1) 0 [[1; 2]] ∅ = None.
Proof.
  apply (call_wrong_width_refused (fun _ => 1) cfg1 inv1 w0 1 [[1; 2]] [1; 2] ∅).
  - constructor.
  - simpl. lia.
Defined.

End DeepSet.

(* ================================================================== *)
(** * bayesflow/networks/flow_matching/flow_matching.py *)
(* ================================================================== *)

Module FlowMatching.
Import Tensor.

Local Open Scope R_scope.

(** ** Python values and keyword arguments *)

#[warnings="-register-all"]
Inductive pyval : Type :=
| PNone
| PBool (b : bool)
| PInt (n : Z)
| PFloat (r : R)
| PStr (s : string)
| PDict (d : list (string * pyval)).

(** The truth value Python gives to a value in [if v:]. *)
Definition truthy (v : pyval) : bool :=
  match v with
  | PNone => false
  | PBool b => b
  | PInt n => negb (n =? 0)%Z
  | PFloat r => if Req_dec_T r 0 then false else true
  | PStr s => negb (String.eqb s "")
  | PDict d => match d with [] => false | _ => true end
  end.

(** [d.get(key, dflt)]. *)
Definition get (d : gmap string pyval) (key : string) (dflt : pyval) : pyval :=
  default dflt (d !! key).

(** ** The effects of a call

    A call reads and advances the seed generator of the network and
    constructs integrator objects; [constructed] lists the integrator
    classes instantiated so far, oldest first.  [None] is a raised
    exception. *)

Inductive integrator_kind : Type := Euler | RK2 | RK4.

Record world : Type := {
  seed_state : nat;
  constructed : list integrator_kind;
}.

Definition M (A : Type) : Type := world -> option (A * world).

Definition ret {A : Type} (a : A) : M A := fun w => Some (a, w).

Definition bind {A B : Type} (m : M A) (f : A -> M B) : M B :=
  fun w => match m w with
           | Some (a, w') => f a w'
           | None => None
           end.

Definition raise {A : Type} : M A := fun _ => None.

Notation "'let*' x ':=' m 'in' k" := (bind m (fun x => k))
  (at level 10, x binder, k at level 200).

(** Reading the generator's state and replacing it. *)
Definition get_seed : M nat := fun w => Some (seed_state w, w).

Definition put_seed (s : nat) : M unit :=
  fun w => Some (tt, {| seed_state := s; constructed := constructed w |}).

(** One draw from [self.seed_generator]. *)
Definition next_seed : M nat :=
  let* s := get_seed in let* _ := put_seed (S s) in ret s.

(** The world after an integrator of class [k] has been constructed. *)
Definition record_integrator (k : integrator_kind) (w : world) : world :=
  {| seed_state := seed_state w; constructed := constructed w ++ [k] |}.

(** What [call] returns: the sample, or the sample and its log-density. *)
Inductive output : Type :=
| Sample (xz : matrix)
| SampleDensity (xz : matrix) (log_density : vec).

(** What [compute_metrics] accepts: a tensor, or a sequence of tensors. *)
Inductive metrics_input : Type :=
| XTensor (x : matrix)
| XSequence (xs : list matrix).

(** The local variables of [compute_metrics] after its first block. *)
Record training_pair : Type := {
  tp_x0 : matrix;
  tp_x1 : matrix;
  tp_t : matrix;
  tp_x : matrix;
  tp_target_velocity : matrix;
  tp_conditions : option matrix;
}.

(** ** Tensor arithmetic with broadcasting

    [a op b] for tensors of two axes: an axis of size one is stretched to
    the size of the other operand.  A shape error of NumPy is not modelled:
    the operands of the code have the shapes (B, D) and (B, 1). *)

Definition bvec (f : R -> R -> R) (a b : vec) : vec :=
  match a, b with
  | [x], _ => map (f x) b
  | _, [y] => map (fun x => f x y) a
  | _, _ => zip_with f a b
  end.

Definition bmat (f : R -> R -> R) (a b : matrix) : matrix :=
  match a, b with
  | [ra], _ => map (bvec f ra) b
  | _, [rb] => map (fun r => bvec f r rb) a
  | _, _ => zip_with (bvec f) a b
  end.

(** [c - t] for a Python number [c]. *)
Definition scalar_minus (c : R) (t : matrix) : matrix :=
  map (map (fun ti => c - ti)) t.

(** [keras.ops.shape]. *)
Definition shape (m : matrix) : list nat := [length m; length (hd [] m)].

(** [keras.losses.mean_squared_error]: the mean over the last axis of the
    squared difference.  Squares and means are exact here; the program
    computes them in binary32, see [Float32] for what that changes. *)
Definition mean_squared_error (y_true y_pred : matrix) : vec :=
  map (fun d => vmean (map (fun e => e * e) d)) (bmat Rminus y_true y_pred).

(** Modelled from the spec: [bayesflow.utils.expand_right_as] is not among
    the sources.  Section 3 has one interpolation time per batch element
    and states of shape (batch, dim): the times become a column. *)
Definition expand_right_as (t : vec) (x : matrix) : matrix :=
  map (fun ti => [ti]) t.

Section Network.

(** The function approximator, its output layer and the state of the base
    class [InferenceNetwork]; Keras objects and a class outside the
    sources. *)
Variables Subnet Projector Base : Type.

(** An integrator object of [.integrators], a module outside the sources.
    Section 4.3 of the specification gives the contract: called with
    [density=True] it returns the final state and the trace, otherwise the
    final state.  [inverse] is [None] when the keyword is not passed. *)
Record Integrator : Type := {
  integrate :
    Subnet -> Projector -> matrix -> option matrix -> pyval ->
    forall density : bool, option bool ->
    if density then (matrix * vec)%type else matrix;
  velocity :
    Subnet -> Projector -> matrix -> matrix -> option matrix -> matrix;
}.

(** [EulerIntegrator()], [RK2Integrator()], [RK4Integrator()]. *)
Variable construct : integrator_kind -> Integrator.

(** [self.base_distribution.log_prob]. *)
Variable log_prob : Base -> matrix -> vec.

(** [InferenceNetwork.__init__] after [keras_kwargs],
    [InferenceNetwork.compute_metrics], [find_network],
    [keras.layers.Dense(units=None, bias_initializer="zeros")]. *)
Variable base_init : string -> gmap string pyval -> Base.
Variable base_compute_metrics :
  Base -> matrix -> option matrix -> string -> gmap string R.
Variable find_network : string -> list (string * pyval) -> Subnet.
Variable new_projector : Projector.

(** [keras.random.normal(shape, seed)], [keras.random.uniform(shape, seed)]
    and [bayesflow.utils.optimal_transport], which is handed the generator
    and returns the reordered [x1], [x0] and conditions; the last component
    is the generator's state afterwards. *)
Variable random_normal : list nat -> nat -> matrix.
Variable random_uniform : list nat -> nat -> vec.
Variable optimal_transport :
  matrix -> matrix -> option matrix -> nat -> gmap string pyval ->
  matrix * matrix * option matrix * nat.

(** The attributes of a [FlowMatching] object.  There is no integrator
    among them. *)
Record FlowMatching : Type := {
  base : Base;
  use_optimal_transport : bool;
  optimal_transport_kwargs : gmap string pyval;
  subnet : Subnet;
  output_projector : Projector;
}.

Definition default_optimal_transport_kwargs : gmap string pyval :=
  <["method" := PStr "sinkhorn"]>
    (<["cost" := PStr "euclidean"]>
       (<["regularization" := PFloat (/ 10)]>
          (<["max_steps" := PInt 1000]>
             (<["tolerance" := PFloat (/ 10 ^ 4)]> ∅)))).

(** [__init__(subnet, base_distribution, use_optimal_transport,
    optimal_transport_kwargs, **kwargs)].  It has no [integrator]
    parameter: such a keyword lands in [kwargs], of which only
    ["subnet_kwargs"] is read here. *)
Definition __init__ (subnet_name base_distribution : string)
    (use_ot : bool) (ot_kwargs : option (gmap string pyval))
    (kwargs : gmap string pyval) : option FlowMatching :=
  let ot_kwargs :=
    match ot_kwargs with
    | Some d => if decide (size d = 0%nat)
                then default_optimal_transport_kwargs else d
    | None => default_optimal_transport_kwargs
    end in
  match get kwargs "subnet_kwargs" (PDict []) with
  | PDict subnet_kwargs =>
      Some {| base := base_init base_distribution kwargs;
              use_optimal_transport := use_ot;
              optimal_transport_kwargs := ot_kwargs;
              subnet := find_network subnet_name subnet_kwargs;
              output_projector := new_projector |}
  | _ => None
  end.

(** [RK2Integrator()] and the like: a new object, and the fact recorded. *)
Definition new_integrator (k : integrator_kind) : M Integrator :=
  fun w => Some (construct k, record_integrator k w).

(** [_forward(x, conditions, density=False, **kwargs)].  [args] holds the
    keywords of the call; [density] is bound from them, the others are
    [kwargs]. *)
Definition _forward (self : FlowMatching) (x : matrix)
    (conditions : option matrix) (args : gmap string pyval) : M output :=
  let density := get args "density" (PBool false) in
  let kwargs := delete "density" args in
  let steps := get kwargs "steps" (PInt 100) in
  let* integrator := new_integrator RK2 in
  if truthy density then
    let '(z, trace) :=
      integrate integrator (subnet self) (output_projector self) x conditions
                steps true None in
    let log_prob := log_prob (base self) z in
    let log_density := vadd log_prob trace in
    ret (SampleDensity z log_density)
  else
    let z :=
      integrate integrator (subnet self) (output_projector self) x conditions
                steps false None in
    ret (Sample z).

(** [_inverse(z, conditions, density=False, **kwargs)]. *)
Definition _inverse (self : FlowMatching) (z : matrix)
    (conditions : option matrix) (args : gmap string pyval) : M output :=
  let density := get args "density" (PBool false) in
  let kwargs := delete "density" args in
  let steps := get kwargs "steps" (PInt 100) in
  let* integrator := new_integrator RK2 in
  if truthy density then
    let '(x, trace) :=
      integrate integrator (subnet self) (output_projector self) z conditions
                steps true (Some true) in
    let log_prob := log_prob (base self) z in
    let log_density := vsub log_prob trace in
    ret (SampleDensity x log_density)
  else
    let x :=
      integrate integrator (subnet self) (output_projector self) z conditions
                steps false (Some true) in
    ret (Sample x).

(** [call(xz, conditions=None, inverse=False, **kwargs)]. *)
Definition call (self : FlowMatching) (xz : matrix)
    (conditions : option matrix) (args : gmap string pyval) : M output :=
  let inverse := get args "inverse" (PBool false) in
  let kwargs := delete "inverse" args in
  if truthy inverse
  then _inverse self xz conditions kwargs
  else _forward self xz conditions kwargs.

(** The first block of [compute_metrics], lines 125 to 142: the training
    pair is taken from the sequence, or sampled. *)
Definition make_training_pair (self : FlowMatching) (x : metrics_input)
    (conditions : option matrix) : M training_pair :=
  match x with
  | XSequence xs =>
      match xs with
      | [x0; x1; t; x; target_velocity] =>
          ret {| tp_x0 := x0; tp_x1 := x1; tp_t := t; tp_x := x;
                 tp_target_velocity := target_velocity;
                 tp_conditions := conditions |}
      | _ => raise
      end
  | XTensor x =>
      let x1 := x in
      let* s := next_seed in
      let x0 := random_normal (shape x1) s in
      let* '(x1, x0, conditions) :=
        (if use_optimal_transport self then
           let* g := get_seed in
           let '(x1, x0, conditions, g') :=
             optimal_transport x1 x0 conditions g
                               (optimal_transport_kwargs self) in
           let* _ := put_seed g' in
           ret (x1, x0, conditions)
         else ret (x1, x0, conditions)) in
      let* s := next_seed in
      let t := random_uniform [length x0] s in
      let t := expand_right_as t x0 in
      let x := bmat Rplus (bmat Rmult t x1) (bmat Rmult (scalar_minus 1 t) x0) in
      let target_velocity := bmat Rminus x1 x0 in
      ret {| tp_x0 := x0; tp_x1 := x1; tp_t := t; tp_x := x;
             tp_target_velocity := target_velocity;
             tp_conditions := conditions |}
  end.

(** [compute_metrics(x, conditions=None, stage="training")].  Python's
    [base_metrics | {"loss": loss}] lets the right operand win on a shared
    key; the union of finite maps lets the left one win. *)
Definition compute_metrics (self : FlowMatching) (x : metrics_input)
    (conditions : option matrix) (stage : string) : M (gmap string R) :=
  let* tp := make_training_pair self x conditions in
  let base_metrics :=
    base_compute_metrics (base self) (tp_x1 tp) (tp_conditions tp) stage in
  let* integrator := new_integrator RK2 in
  let predicted_velocity :=
    velocity integrator (subnet self) (output_projector self)
             (tp_x tp) (tp_t tp) (tp_conditions tp) in
  let loss := mean_squared_error (tp_target_velocity tp) predicted_velocity in
  let loss := vmean loss in
  ret ({["loss" := loss]} ∪ base_metrics).

(** The same object with another [use_optimal_transport]. *)
Definition set_use_optimal_transport (b : bool) (self : FlowMatching)
  : FlowMatching :=
  {| base := base self; use_optimal_transport := b;
     optimal_transport_kwargs := optimal_transport_kwargs self;
     subnet := subnet self; output_projector := output_projector self |}.

(** ** Forward and inverse passes *)

Lemma forward_density (self : FlowMatching) (x : matrix)
    (conditions : option matrix) (args : gmap string pyval) (w : world) :
  truthy (get args "density" (PBool false)) = true ->
  _forward self x conditions args w =
  let r := integrate (construct RK2) (subnet self) (output_projector self)
             x conditions (get (delete "density" args) "steps" (PInt 100))
             true None in
  Some (SampleDensity r.1 (vadd (log_prob (base self) r.1) r.2),
        record_integrator RK2 w).
Proof.
  intros Hd. unfold _forward, bind, new_integrator, ret. rewrite Hd.
  cbv zeta. destruct (integrate _ _ _ _ _ _ _ _) as [z tr]. reflexivity.
Qed.

Lemma inverse_density (self : FlowMatching) (z : matrix)
    (conditions : option matrix) (args : gmap string pyval) (w : world) :
  truthy (get args "density" (PBool false)) = true ->
  _inverse self z conditions args w =
  let r := integrate (construct RK2) (subnet self) (output_projector self)
             z conditions (get (delete "density" args) "steps" (PInt 100))
             true (Some true) in
  Some (SampleDensity r.1 (vsub (log_prob (base self) z) r.2),
        record_integrator RK2 w).
Proof.
  intros Hd. unfold _inverse, bind, new_integrator, ret. rewrite Hd.
  cbv zeta. destruct (integrate _ _ _ _ _ _ _ _) as [x tr]. reflexivity.
Qed.

Lemma forward_plain (self : FlowMatching) (x : matrix)
    (conditions : option matrix) (args : gmap string pyval) (w : world) :
  truthy (get args "density" (PBool false)) = false ->
  _forward self x conditions args w =
  Some (Sample (integrate (construct RK2) (subnet self) (output_projector self)
                  x conditions (get (delete "density" args) "steps" (PInt 100))
                  false None),
        record_integrator RK2 w).
Proof.
  intros Hd. unfold _forward, bind, new_integrator, ret. by rewrite Hd.
Qed.

Lemma inverse_plain (self : FlowMatching) (z : matrix)
    (conditions : option matrix) (args : gmap string pyval) (w : world) :
  truthy (get args "density" (PBool false)) = false ->
  _inverse self z conditions args w =
  Some (Sample (integrate (construct RK2) (subnet self) (output_projector self)
                  z conditions (get (delete "density" args) "steps" (PInt 100))
                  false (Some true)),
        record_integrator RK2 w).
Proof.
  intros Hd. unfold _inverse, bind, new_integrator, ret. by rewrite Hd.
Qed.

(** C1. With density requested, [_forward] returns the integrated endpoint
    [z] and the base log-probability at [z] plus the trace of the
    integrator; [_inverse] returns the integrated [x] and the base
    log-probability (taken at its input [z]) minus the trace. *)
Theorem log_density_forward_plus_inverse_minus (self : FlowMatching)
    (x z : matrix) (conditions : option matrix) (args : gmap string pyval)
    (w : world) :
  truthy (get args "density" (PBool false)) = true ->
  let steps := get (delete "density" args) "steps" (PInt 100) in
  let f := integrate (construct RK2) (subnet self) (output_projector self)
             x conditions steps true None in
  let i := integrate (construct RK2) (subnet self) (output_projector self)
             z conditions steps true (Some true) in
  _forward self x conditions args w =
    Some (SampleDensity f.1 (vadd (log_prob (base self) f.1) f.2),
          record_integrator RK2 w) /\
  _inverse self z conditions args w =
    Some (SampleDensity i.1 (vsub (log_prob (base self) z) i.2),
          record_integrator RK2 w).
Proof.
  intros Hd. split; [by apply forward_density | by apply inverse_density].
Qed.

(** ** Dispatch and defaults *)

Lemma get_delete_ne (d : gmap string pyval) (k k' : string) (v : pyval) :
  k <> k' -> get (delete k d) k' v = get d k' v.
Proof. intros Hne. unfold get. by rewrite lookup_delete_ne. Qed.

Lemma get_delete_eq (d : gmap string pyval) (k : string) (v : pyval) :
  get (delete k d) k v = v.
Proof. unfold get. by rewrite lookup_delete_eq. Qed.

Lemma get_insert_ne (d : gmap string pyval) (k k' : string) (u v : pyval) :
  k <> k' -> get (<[k := u]> d) k' v = get d k' v.
Proof. intros Hne. unfold get. by rewrite lookup_insert_ne. Qed.

Lemma get_insert_eq (d : gmap string pyval) (k : string) (u v : pyval) :
  get (<[k := u]> d) k v = u.
Proof. unfold get. by rewrite lookup_insert_eq. Qed.

Lemma forward_default_steps (self : FlowMatching) (x : matrix)
    (conditions : option matrix) (args : gmap string pyval) (w : world) :
  _forward self x conditions (delete "steps" args) w =
  _forward self x conditions (<["steps" := PInt 100]> args) w.
Proof.
  unfold _forward.
  rewrite (get_delete_ne args "steps" "density") by done.
  rewrite (get_insert_ne args "steps" "density") by done.
  rewrite (delete_delete args "density" "steps").
  rewrite get_delete_eq.
  rewrite (delete_insert_ne args "density" "steps") by done.
  by rewrite get_insert_eq.
Qed.

Lemma inverse_default_steps (self : FlowMatching) (z : matrix)
    (conditions : option matrix) (args : gmap string pyval) (w : world) :
  _inverse self z conditions (delete "steps" args) w =
  _inverse self z conditions (<["steps" := PInt 100]> args) w.
Proof.
  unfold _inverse.
  rewrite (get_delete_ne args "steps" "density") by done.
  rewrite (get_insert_ne args "steps" "density") by done.
  rewrite (delete_delete args "density" "steps").
  rewrite get_delete_eq.
  rewrite (delete_insert_ne args "density" "steps") by done.
  by rewrite get_insert_eq.
Qed.

(** C7. [call] runs [_inverse] when the keyword [inverse] is true and
    [_forward] otherwise.  Called without keywords it runs [_forward]
    without density and with 100 steps; [_inverse] without keywords also
    uses no density and 100 steps; and leaving out [steps] is the same as
    passing [steps=100], in both directions. *)
Theorem call_dispatch_and_defaults (self : FlowMatching) (xz : matrix)
    (conditions : option matrix) (args : gmap string pyval) (w : world) :
  call self xz conditions args w =
    (if truthy (get args "inverse" (PBool false))
     then _inverse self xz conditions (delete "inverse" args) w
     else _forward self xz conditions (delete "inverse" args) w) /\
  call self xz conditions ∅ w =
    Some (Sample (integrate (construct RK2) (subnet self)
                    (output_projector self) xz conditions (PInt 100)
                    false None),
          record_integrator RK2 w) /\
  _inverse self xz conditions ∅ w =
    Some (Sample (integrate (construct RK2) (subnet self)
                    (output_projector self) xz conditions (PInt 100)
                    false (Some true)),
          record_integrator RK2 w) /\
  _forward self xz conditions (delete "steps" args) w =
    _forward self xz conditions (<["steps" := PInt 100]> args) w /\
  _inverse self xz conditions (delete "steps" args) w =
    _inverse self xz conditions (<["steps" := PInt 100]> args) w.
Proof.
  split; [| split; [| split; [| split]]].
  - unfold call. by destruct (truthy _).
  - unfold call. rewrite delete_empty. unfold get at 1.
    rewrite lookup_empty. simpl.
    rewrite forward_plain by (unfold get; by rewrite lookup_empty).
    rewrite delete_empty. unfold get. by rewrite lookup_empty.
  - rewrite inverse_plain by (unfold get; by rewrite lookup_empty).
    rewrite delete_empty. unfold get. by rewrite lookup_empty.
  - apply forward_default_steps.
  - apply inverse_default_steps.
Qed.

(** ** Broadcasting on equal shapes, sums of squares *)

Lemma bvec_same_length (f : R -> R -> R) (a b : vec) :
  length a = length b -> bvec f a b = zip_with f a b.
Proof.
  intros Hlen. destruct a as [| x [| x' a]], b as [| y [| y' b]];
    simpl in *; try reflexivity; lia.
Qed.

Lemma bmat_same_length (f : R -> R -> R) (a b : matrix) :
  length a = length b -> bmat f a b = zip_with (bvec f) a b.
Proof.
  intros Hlen. destruct a as [| x [| x' a]], b as [| y [| y' b]];
    simpl in *; try reflexivity; lia.
Qed.

Lemma bmat_same_shape (f : R -> R -> R) (B D : nat) (a b : matrix) :
  mat_shape B D a -> mat_shape B D b ->
  bmat f a b = zip_with (zip_with f) a b.
Proof.
  intros [Ha Har] [Hb Hbr]. rewrite bmat_same_length by congruence.
  clear Ha Hb. revert b Hbr. induction Har as [| ra a Hra _ IH]; intros b Hbr.
  - reflexivity.
  - destruct Hbr as [| rb b Hrb Hbr]; [reflexivity |].
    simpl. rewrite bvec_same_length by congruence. f_equal. by apply IH.
Qed.

Lemma bmat_column (f : R -> R -> R) (g : R -> R) (t : vec) (x : matrix) :
  length t = length x ->
  bmat f (map (fun ti => [g ti]) t) x =
  zip_with (fun ti row => map (f (g ti)) row) t x.
Proof.
  intros Hlen. rewrite bmat_same_length by (by rewrite length_map).
  revert x Hlen. induction t as [| ti t IH]; intros [| row x] Hlen;
    simpl in *; try reflexivity; try lia.
  f_equal. apply IH. lia.
Qed.

Lemma vsum_nonneg (v : vec) : Forall (fun e => 0 <= e) v -> 0 <= vsum v.
Proof.
  unfold vsum. induction 1 as [| e v He _ IH]; simpl; lra.
Qed.

Lemma inv_INR_nonneg (n : nat) : 0 <= / INR n.
Proof.
  destruct n as [| n]; [simpl; rewrite Rinv_0; lra |].
  left. apply Rinv_0_lt_compat. apply lt_0_INR. lia.
Qed.

Lemma vmean_nonneg (v : vec) : Forall (fun e => 0 <= e) v -> 0 <= vmean v.
Proof.
  intros Hv. unfold vmean, Rdiv.
  apply Rmult_le_pos; [by apply vsum_nonneg | apply inv_INR_nonneg].
Qed.

Lemma vmean_all_zero (v : vec) : Forall (fun e => e = 0) v -> vmean v = 0.
Proof.
  intros Hv. unfold vmean, Rdiv.
  assert (Hs : vsum v = 0).
  { unfold vsum. induction Hv as [| e v -> _ IH]; simpl; lra. }
  rewrite Hs. lra.
Qed.

Lemma squares_nonneg (d : vec) : Forall (fun e => 0 <= e) (map (fun e => e * e) d).
Proof. apply Forall_fmap, Forall_forall. intros e _. simpl. nra. Qed.

Lemma mean_squared_error_nonneg (y_true y_pred : matrix) :
  Forall (fun e => 0 <= e) (mean_squared_error y_true y_pred).
Proof.
  unfold mean_squared_error. apply Forall_fmap, Forall_forall.
  intros d _. simpl. apply vmean_nonneg, squares_nonneg.
Qed.

Lemma loss_nonneg (y_true y_pred : matrix) :
  0 <= vmean (mean_squared_error y_true y_pred).
Proof. apply vmean_nonneg, mean_squared_error_nonneg. Qed.

Lemma loss_zero_of_equal (B D : nat) (y : matrix) :
  mat_shape B D y -> vmean (mean_squared_error y y) = 0.
Proof.
  intros Hy. apply vmean_all_zero. unfold mean_squared_error.
  rewrite (bmat_same_shape Rminus B D) by done.
  apply Forall_fmap, Forall_forall. intros d Hd. simpl.
  apply vmean_all_zero. apply Forall_fmap, Forall_forall. intros e He. simpl.
  apply list_elem_of_In, list_elem_of_lookup in Hd as [i Hd].
  apply lookup_zip_with_Some in Hd as (r1 & r2 & -> & H1 & H2).
  rewrite H1 in H2. injection H2 as <-.
  apply list_elem_of_In, list_elem_of_lookup in He as [j He].
  apply lookup_zip_with_Some in He as (a & b & -> & Ha & Hb).
  rewrite Ha in Hb. injection Hb as <-. lra.
Qed.

Lemma interpolation_rows (B D : nat) (u : vec) (x1 x0 : matrix) :
  length u = B -> mat_shape B D x1 -> mat_shape B D x0 ->
  bmat Rplus (bmat Rmult (expand_right_as u x0) x1)
             (bmat Rmult (scalar_minus 1 (expand_right_as u x0)) x0) =
  zip_with (fun ti rr => zip_with (fun a b => ti * a + (1 - ti) * b) rr.1 rr.2)
           u (zip x1 x0).
Proof.
  intros Hu [H1 H1r] [H0 H0r]. unfold expand_right_as, scalar_minus.
  rewrite map_map. simpl.
  rewrite (bmat_column Rmult (fun ti => ti) u x1) by congruence.
  rewrite (bmat_column Rmult (fun ti => 1 - ti) u x0) by congruence.
  rewrite bmat_same_length
    by (rewrite !length_zip_with; f_equal; exact (eq_trans H1 (eq_sym H0))).
  subst B. revert x1 x0 H1 H0 H1r H0r.
  induction u as [| ti u IH]; intros [| r1 x1] [| r0 x0] H1 H0 H1r H0r;
    simpl in *; try reflexivity; try lia.
  inversion H1r; inversion H0r; subst.
  f_equal.
  - rewrite bvec_same_length by (rewrite !length_map; congruence).
    clear. revert r0. induction r1 as [| a r1 IHr]; intros [| b r0];
      simpl; try reflexivity. f_equal. apply IHr.
  - apply IH; [lia | lia | done | done].
Qed.

(** ** The training pair and the loss *)

Lemma compute_metrics_unfold (self : FlowMatching) (x : metrics_input)
    (conditions : option matrix) (stage : string) (w : world) :
  compute_metrics self x conditions stage w =
  match make_training_pair self x conditions w with
  | Some (tp, w1) =>
      Some ({["loss" :=
               vmean (mean_squared_error (tp_target_velocity tp)
                        (velocity (construct RK2) (subnet self)
                           (output_projector self) (tp_x tp) (tp_t tp)
                           (tp_conditions tp)))]}
            ∪ base_compute_metrics (base self) (tp_x1 tp) (tp_conditions tp) stage,
            record_integrator RK2 w1)
  | None => None
  end.
Proof.
  unfold compute_metrics, bind.
  destruct (make_training_pair self x conditions w) as [[tp w1] |]; reflexivity.
Qed.

Lemma make_training_pair_tensor (self : FlowMatching) (x1 : matrix)
    (conditions : option matrix) (w : world) :
  let s0 := seed_state w in
  let x0 := random_normal (shape x1) s0 in
  let coupled :=
    if use_optimal_transport self
    then optimal_transport x1 x0 conditions (S s0) (optimal_transport_kwargs self)
    else (x1, x0, conditions, S s0) in
  let x1' := coupled.1.1.1 in
  let x0' := coupled.1.1.2 in
  let t := expand_right_as (random_uniform [length x0'] coupled.2) x0' in
  make_training_pair self (XTensor x1) conditions w =
  Some ({| tp_x0 := x0'; tp_x1 := x1'; tp_t := t;
           tp_x := bmat Rplus (bmat Rmult t x1')
                     (bmat Rmult (scalar_minus 1 t) x0');
           tp_target_velocity := bmat Rminus x1' x0';
           tp_conditions := coupled.1.2 |},
        {| seed_state := S coupled.2; constructed := constructed w |}).
Proof.
  unfold make_training_pair, next_seed, get_seed, put_seed, bind, ret.
  destruct w as [s0 log]. simpl.
  destruct (use_optimal_transport self); simpl; [| reflexivity].
  destruct (optimal_transport _ _ _ _ _) as [[[x1' x0'] c'] g]. reflexivity.
Qed.

(** [compute_metrics] raises on a sequence that has not five elements and
    on nothing else. *)
Lemma make_training_pair_raises (self : FlowMatching) (x : metrics_input)
    (conditions : option matrix) (w : world) :
  make_training_pair self x conditions w = None <->
  exists xs, x = XSequence xs /\ length xs <> 5%nat.
Proof.
  split.
  - destruct x as [x1 | xs].
    + rewrite make_training_pair_tensor. discriminate.
    + intros H. exists xs. split; [reflexivity |].
      destruct xs as [| ? [| ? [| ? [| ? [| ? [| ? ?]]]]]]; simpl; try lia.
      discriminate H.
  - intros (xs & -> & Hlen).
    destruct xs as [| ? [| ? [| ? [| ? [| ? [| ? ?]]]]]]; simpl in *;
      try reflexivity. lia.
Qed.

(** C5. On a tensor [x1] the training pair is sampled anew: [x0] is drawn
    from [keras.random.normal] with the shape of [x1] and the next seed of
    the generator; with optimal transport enabled [x1], [x0] and the
    conditions are then replaced by what [optimal_transport] returns; [t] is
    drawn uniformly, one number per row of [x0]; the interpolated state is
    [t * x1 + (1 - t) * x0] and the target velocity is [x1 - x0], both on
    the reordered pair.  On shapes (B, D) these are the row-wise formulas. *)
Theorem training_pair_sampled (self : FlowMatching) (x1 : matrix)
    (conditions : option matrix) (w : world) :
  let s0 := seed_state w in
  let x0 := random_normal (shape x1) s0 in
  let coupled :=
    if use_optimal_transport self
    then optimal_transport x1 x0 conditions (S s0) (optimal_transport_kwargs self)
    else (x1, x0, conditions, S s0) in
  let x1' := coupled.1.1.1 in
  let x0' := coupled.1.1.2 in
  let u := random_uniform [length x0'] coupled.2 in
  let t := expand_right_as u x0' in
  let x := bmat Rplus (bmat Rmult t x1') (bmat Rmult (scalar_minus 1 t) x0') in
  let target_velocity := bmat Rminus x1' x0' in
  make_training_pair self (XTensor x1) conditions w =
    Some ({| tp_x0 := x0'; tp_x1 := x1'; tp_t := t; tp_x := x;
             tp_target_velocity := target_velocity;
             tp_conditions := coupled.1.2 |},
          {| seed_state := S coupled.2; constructed := constructed w |}) /\
  (forall B D : nat,
      mat_shape B D x1' -> mat_shape B D x0' -> length u = B ->
      x = zip_with (fun ti rr =>
                      zip_with (fun a b => ti * a + (1 - ti) * b) rr.1 rr.2)
                   u (zip x1' x0') /\
      target_velocity = zip_with (zip_with Rminus) x1' x0').
Proof.
  cbv zeta. split; [apply make_training_pair_tensor |].
  intros B D H1 H0 Hu. split.
  - by apply (interpolation_rows B D).
  - by apply (bmat_same_shape Rminus B D).
Qed.

(** C9. On a sequence of five tensors [compute_metrics] takes them as
    [x0, x1, t, x, target_velocity]: the pair is the given one, the seed
    generator is not advanced, the conditions are the given ones, the loss
    is computed from the given [x], [t] and [target_velocity], and the
    value of [use_optimal_transport] makes no difference. *)
Theorem compute_metrics_preconfigured (self : FlowMatching)
    (x0 x1 t x target_velocity : matrix) (conditions : option matrix)
    (stage : string) (w : world) :
  make_training_pair self (XSequence [x0; x1; t; x; target_velocity])
                     conditions w =
    Some ({| tp_x0 := x0; tp_x1 := x1; tp_t := t; tp_x := x;
             tp_target_velocity := target_velocity;
             tp_conditions := conditions |}, w) /\
  compute_metrics self (XSequence [x0; x1; t; x; target_velocity])
                  conditions stage w =
    Some ({["loss" :=
             vmean (mean_squared_error target_velocity
                      (velocity (construct RK2) (subnet self)
                         (output_projector self) x t conditions))]}
          ∪ base_compute_metrics (base self) x1 conditions stage,
          {| seed_state := seed_state w;
             constructed := constructed w ++ [RK2] |}) /\
  (forall b : bool,
      compute_metrics (set_use_optimal_transport b self)
                      (XSequence [x0; x1; t; x; target_velocity])
                      conditions stage w =
      compute_metrics self (XSequence [x0; x1; t; x; target_velocity])
                      conditions stage w).
Proof.
  split; [reflexivity |]. split; [reflexivity |].
  intros b. reflexivity.
Qed.

(** C6 (amended). On a tensor [compute_metrics] returns the metrics of the
    base class with the entry ["loss"] set to the mean over the batch of
    the mean squared error between target and predicted velocity.  The
    loss is one real number; for velocities of one shape (B, D), B and D at
    least one, it is not negative, and it is zero when the predicted
    velocity equals the target.  A zero loss does not give back the
    equality in the arithmetic of the program, and an empty batch has the
    loss NaN: see the values in binary32 further down. *)
Theorem compute_metrics_loss (self : FlowMatching) (x : matrix)
    (conditions : option matrix) (stage : string) (w : world) :
  exists (tp : training_pair) (w1 : world) (metrics : gmap string R),
    make_training_pair self (XTensor x) conditions w = Some (tp, w1) /\
    compute_metrics self (XTensor x) conditions stage w =
      Some (metrics, record_integrator RK2 w1) /\
    let predicted_velocity :=
      velocity (construct RK2) (subnet self) (output_projector self)
               (tp_x tp) (tp_t tp) (tp_conditions tp) in
    let loss :=
      vmean (mean_squared_error (tp_target_velocity tp) predicted_velocity) in
    metrics !! "loss" = Some loss /\
    (forall k : string,
        k <> "loss" ->
        metrics !! k =
        base_compute_metrics (base self) (tp_x1 tp) (tp_conditions tp) stage !! k) /\
    (forall B D : nat,
        (1 <= B)%nat -> (1 <= D)%nat ->
        mat_shape B D (tp_target_velocity tp) ->
        mat_shape B D predicted_velocity ->
        0 <= loss /\
        (predicted_velocity = tp_target_velocity tp -> loss = 0)).
Proof.
  pose proof (make_training_pair_tensor self x conditions w) as Hpair.
  cbv zeta in Hpair.
  eexists _, _, _. split; [exact Hpair |].
  split; [rewrite compute_metrics_unfold, Hpair; reflexivity |].
  cbv zeta. split; [| split].
  - apply lookup_union_Some_l, lookup_singleton_eq.
  - intros k Hk. rewrite lookup_union_r; [reflexivity |].
    by apply lookup_singleton_ne.
  - intros B D _ _ Ht Hp. split; [apply loss_nonneg |].
    intros Heq. rewrite Heq. by apply (loss_zero_of_equal B D).
Qed.

(** ** Forward against inverse log-density *)

Lemma vsub_vadd_vsub (lp tf ti : vec) :
  length lp = length tf -> length tf = length ti ->
  vsub (vadd lp tf) (vsub lp ti) = vadd tf ti.
Proof.
  unfold vsub, vadd. revert tf ti.
  induction lp as [| a lp IH]; intros [| b tf] [| c ti] H1 H2;
    simpl in *; try reflexivity; try lia.
  f_equal; [lra | apply IH; lia].
Qed.

Lemma vsub_vneg (lp tf : vec) : vsub lp (vneg tf) = vadd lp tf.
Proof.
  unfold vsub, vadd, vneg. revert tf.
  induction lp as [| a lp IH]; intros [| b tf]; simpl; try reflexivity.
  f_equal; [lra | apply IH].
Qed.

(** C2 (amended). With density requested, let [z] and the trace [tf] come
    from the forward integration of [x], and the trace [ti] from the
    inverse integration of that [z].  The forward log-density minus the
    inverse one recomputed on [z] is [tf + ti]; so when the integrator
    accumulates the inverse trace with the opposite sign, [ti = - tf], the
    two log-densities are equal. *)
Theorem density_forward_inverse_relation (self : FlowMatching) (x : matrix)
    (conditions : option matrix) (args : gmap string pyval) (w : world) :
  truthy (get args "density" (PBool false)) = true ->
  let steps := get (delete "density" args) "steps" (PInt 100) in
  let f := integrate (construct RK2) (subnet self) (output_projector self)
             x conditions steps true None in
  let i := integrate (construct RK2) (subnet self) (output_projector self)
             f.1 conditions steps true (Some true) in
  length (log_prob (base self) f.1) = length f.2 ->
  length f.2 = length i.2 ->
  exists lf li : vec,
    _forward self x conditions args w =
      Some (SampleDensity f.1 lf, record_integrator RK2 w) /\
    _inverse self f.1 conditions args (record_integrator RK2 w) =
      Some (SampleDensity i.1 li,
            record_integrator RK2 (record_integrator RK2 w)) /\
    vsub lf li = vadd f.2 i.2 /\
    (i.2 = vneg f.2 -> li = lf).
Proof.
  intros Hd steps f i Hlp Hfi.
  exists (vadd (log_prob (base self) f.1) f.2),
         (vsub (log_prob (base self) f.1) i.2).
  split; [by apply forward_density |].
  split; [by apply inverse_density |].
  split; [by apply vsub_vadd_vsub |].
  intros ->. apply vsub_vneg.
Qed.

(** ** Keywords that are not read *)

(** The keywords that [call], [_forward] and [_inverse] read, and the names
    of their parameters: Python binds a keyword of the second list to the
    parameter, or refuses it as a second value for it. *)
Definition read_keywords : list string := ["inverse"; "density"; "steps"].
Definition parameter_names : list string := ["self"; "xz"; "conditions"; "x"; "z"].

Lemma forward_other_keyword (self : FlowMatching) (x : matrix)
    (conditions : option matrix) (args : gmap string pyval) (k : string)
    (v : pyval) (w : world) :
  k <> "density" -> k <> "steps" ->
  _forward self x conditions (<[k := v]> args) w =
  _forward self x conditions args w.
Proof.
  intros Hd Hs. unfold _forward.
  rewrite (get_insert_ne args k "density") by done.
  rewrite (delete_insert_ne args "density" k) by done.
  by rewrite (get_insert_ne (delete "density" args) k "steps").
Qed.

Lemma inverse_other_keyword (self : FlowMatching) (z : matrix)
    (conditions : option matrix) (args : gmap string pyval) (k : string)
    (v : pyval) (w : world) :
  k <> "density" -> k <> "steps" ->
  _inverse self z conditions (<[k := v]> args) w =
  _inverse self z conditions args w.
Proof.
  intros Hd Hs. unfold _inverse.
  rewrite (get_insert_ne args k "density") by done.
  rewrite (delete_insert_ne args "density" k) by done.
  by rewrite (get_insert_ne (delete "density" args) k "steps").
Qed.

(** X10. A keyword of [call] other than [inverse], [density] and [steps]
    (and not the name of a parameter) changes nothing: it reaches neither
    the integrator nor the base distribution.  So [integrator="euler"] or a
    step size passed to [call] is dropped without an error. *)
Theorem call_other_keywords_dropped (self : FlowMatching) (xz : matrix)
    (conditions : option matrix) (args : gmap string pyval) (k : string)
    (v : pyval) (w : world) :
  k ∉ read_keywords ++ parameter_names ->
  call self xz conditions (<[k := v]> args) w = call self xz conditions args w /\
  _forward self xz conditions (<[k := v]> args) w =
    _forward self xz conditions args w /\
  _inverse self xz conditions (<[k := v]> args) w =
    _inverse self xz conditions args w.
Proof.
  intros Hk.
  assert (Hi : k <> "inverse") by (intros ->; apply Hk, elem_of_app; left; repeat constructor).
  assert (Hd : k <> "density") by (intros ->; apply Hk, elem_of_app; left; repeat constructor).
  assert (Hs : k <> "steps") by (intros ->; apply Hk, elem_of_app; left; repeat constructor).
  split; [| split].
  - unfold call. rewrite (get_insert_ne args k "inverse") by done.
    rewrite (delete_insert_ne args "inverse" k) by done.
    destruct (truthy _);
      [by apply inverse_other_keyword | by apply forward_other_keyword].
  - by apply forward_other_keyword.
  - by apply inverse_other_keyword.
Qed.

(** ** Seeds of successive training steps *)

(** X11. Without optimal transport one call of [compute_metrics] on a
    tensor draws twice from the seed generator, and the next call draws its
    noise and its times with the two seeds that follow: no seed is used
    twice. *)
Theorem compute_metrics_fresh_seeds (self : FlowMatching) (x x' : matrix)
    (conditions conditions' : option matrix) (stage : string) (w : world) :
  use_optimal_transport self = false ->
  exists (metrics : gmap string R) (w1 : world) (tp : training_pair) (w2 : world),
    compute_metrics self (XTensor x) conditions stage w = Some (metrics, w1) /\
    seed_state w1 = (seed_state w + 2)%nat /\
    make_training_pair self (XTensor x') conditions' w1 = Some (tp, w2) /\
    tp_x0 tp = random_normal (shape x') (seed_state w + 2) /\
    tp_t tp =
      expand_right_as (random_uniform [length (tp_x0 tp)] (seed_state w + 3))
                      (tp_x0 tp) /\
    seed_state w2 = (seed_state w + 4)%nat.
Proof.
  intros Hot.
  pose proof (make_training_pair_tensor self x conditions w) as H1.
  cbv zeta in H1. rewrite Hot in H1. cbn [fst snd] in H1.
  eexists _, _, _, _. split.
  { rewrite compute_metrics_unfold, H1. reflexivity. }
  split; [simpl; lia |].
  pose proof (make_training_pair_tensor self x' conditions'
                (record_integrator RK2
                   {| seed_state := S (S (seed_state w));
                      constructed := constructed w |})) as H2.
  cbv zeta in H2. rewrite Hot in H2. cbn [fst snd] in H2.
  split; [exact H2 |]. simpl.
  replace (seed_state w + 2)%nat with (S (S (seed_state w))) by lia.
  replace (seed_state w + 3)%nat with (S (S (S (seed_state w)))) by lia.
  split; [reflexivity |]. split; [reflexivity | lia].
Qed.

(** ** Building the network *)

(** A shape as Keras passes it to [build]: an axis of unknown size is
    [None]. *)
Definition Shape : Type := list (option nat).

(** [shape[-1]]: [IndexError] on the empty shape. *)
Definition last_axis (shape : Shape) : option (option nat) := list.last shape.

(** [InferenceNetwork.build], [subnet.build],
    [subnet.compute_output_shape], the assignment to
    [output_projector.units] and [output_projector.build]: Keras methods
    and a class outside the sources.  [None] is a raised exception. *)
Variable base_build : Base -> Shape -> option Base.
Variable subnet_build : Subnet -> Shape -> option Subnet.
Variable subnet_compute_output_shape : Subnet -> Shape -> option Shape.
Variable projector_set_units : Projector -> option nat -> Projector.
Variable projector_build : Projector -> Shape -> option Projector.

(** [input_shape[-1] += n] on a list: [IndexError] on the empty list,
    [TypeError] on an axis of unknown size. *)
Definition add_to_last (input_shape : Shape) (n : nat) : option Shape :=
  match last_axis input_shape with
  | Some (Some d) =>
      Some (<[pred (length input_shape) := Some (d + n)%nat]> input_shape)
  | _ => None
  end.

(** [build(xz_shape, conditions_shape=None)]. *)
Definition build (self : FlowMatching) (xz_shape : Shape)
    (conditions_shape : option Shape) : option FlowMatching :=
  base' ← base_build (base self) xz_shape;
  units ← last_axis xz_shape;
  let projector := projector_set_units (output_projector self) units in
  let input_shape := xz_shape in
  input_shape ← add_to_last input_shape 1;
  input_shape ←
    match conditions_shape with
    | Some conditions_shape =>
        match last_axis conditions_shape with
        | Some (Some c) => add_to_last input_shape c
        | _ => None
        end
    | None => Some input_shape
    end;
  subnet' ← subnet_build (subnet self) input_shape;
  out_shape ← subnet_compute_output_shape subnet' input_shape;
  projector' ← projector_build projector out_shape;
  Some {| base := base';
          use_optimal_transport := use_optimal_transport self;
          optimal_transport_kwargs := optimal_transport_kwargs self;
          subnet := subnet';
          output_projector := projector' |}.

(** What [build] does once the width [n] of the subnet's input is known. *)
Definition build_with_width (self : FlowMatching) (lead : Shape) (D n : nat)
  : option FlowMatching :=
  base' ← base_build (base self) (lead ++ [Some D]);
  subnet' ← subnet_build (subnet self) (lead ++ [Some n]);
  out_shape ← subnet_compute_output_shape subnet' (lead ++ [Some n]);
  projector' ←
    projector_build (projector_set_units (output_projector self) (Some D))
                    out_shape;
  Some {| base := base';
          use_optimal_transport := use_optimal_transport self;
          optimal_transport_kwargs := optimal_transport_kwargs self;
          subnet := subnet';
          output_projector := projector' |}.

Lemma add_to_last_snoc (lead : Shape) (d n : nat) :
  add_to_last (lead ++ [Some d]) n = Some (lead ++ [Some (d + n)%nat]).
Proof.
  unfold add_to_last, last_axis. rewrite last_snoc.
  rewrite length_app. simpl length. rewrite Nat.add_1_r, Nat.pred_succ.
  f_equal. unfold Shape in *.
  rewrite insert_app_r_alt by lia. by rewrite Nat.sub_diag.
Qed.

Lemma add_to_last_unknown (lead : Shape) (n : nat) :
  add_to_last (lead ++ [None]) n = None.
Proof. unfold add_to_last, last_axis. by rewrite last_snoc. Qed.

(** X12. [build] on a shape (..., D) builds the subnet for inputs of shape
    (..., D + 1) without conditions and (..., D + 1 + C) with conditions of
    shape (..., C): the state, one time column, the conditions.  The output
    layer gets D units and is built on the output shape of the subnet; the
    leading axes are those of [xz_shape].  On an empty shape, or when the
    last axis of a shape has no known size, [build] raises. *)
Theorem build_subnet_input_width (self : FlowMatching) (lead clead : Shape)
    (D C : nat) :
  build self (lead ++ [Some D]) None =
    build_with_width self lead D (D + 1) /\
  build self (lead ++ [Some D]) (Some (clead ++ [Some C])) =
    build_with_width self lead D (D + 1 + C) /\
  (forall cs : option Shape, build self [] cs = None) /\
  (forall cs : option Shape, build self (lead ++ [None]) cs = None) /\
  build self (lead ++ [Some D]) (Some []) = None /\
  build self (lead ++ [Some D]) (Some (clead ++ [None])) = None.
Proof.
  unfold build, build_with_width, last_axis.
  repeat split.
  - destruct (base_build _ _); [| reflexivity]. cbn [mbind option_bind].
    rewrite last_snoc. cbn [mbind option_bind].
    rewrite add_to_last_snoc. reflexivity.
  - destruct (base_build _ _); [| reflexivity]. cbn [mbind option_bind].
    rewrite !last_snoc. cbn [mbind option_bind].
    rewrite add_to_last_snoc. cbn [mbind option_bind].
    rewrite add_to_last_snoc. reflexivity.
  - intros cs. by destruct (base_build _ _).
  - intros cs. destruct (base_build _ _); [| reflexivity].
    cbn [mbind option_bind]. rewrite last_snoc. cbn [mbind option_bind].
    by rewrite add_to_last_unknown.
  - destruct (base_build _ _); [| reflexivity]. cbn [mbind option_bind].
    rewrite last_snoc. cbn [mbind option_bind].
    by rewrite add_to_last_snoc.
  - destruct (base_build _ _); [| reflexivity]. cbn [mbind option_bind].
    rewrite !last_snoc. cbn [mbind option_bind].
    by rewrite add_to_last_snoc.
Qed.

End Network.

(** C3. For a network made by [__init__] from any arguments, a keyword
    [integrator] among them included: the subnet and the output layer are
    those [__init__] sets, and an [integrator] keyword changes none of
    them; [_forward] and [_inverse] return what the integrator of class
    RK2 returns on them (with the base log-probability added to resp.
    subtracted from its trace when the density is asked for), the loss of
    [compute_metrics] is computed from the velocity of the integrator of
    class RK2, and each call constructs this one integrator; so nothing
    changes when the classes Euler and RK4 are replaced. *)
Theorem integrator_always_rk2 {Subnet Projector Base : Type}
    (construct construct' : integrator_kind -> Integrator Subnet Projector)
    (log_prob : Base -> matrix -> vec)
    (base_init : string -> gmap string pyval -> Base)
    (base_compute_metrics :
       Base -> matrix -> option matrix -> string -> gmap string R)
    (find_network : string -> list (string * pyval) -> Subnet)
    (new_projector : Projector)
    (random_normal : list nat -> nat -> matrix)
    (random_uniform : list nat -> nat -> vec)
    (optimal_transport :
       matrix -> matrix -> option matrix -> nat -> gmap string pyval ->
       matrix * matrix * option matrix * nat)
    (subnet_name base_distribution : string) (use_ot : bool)
    (ot_kwargs : option (gmap string pyval))
    (ctor_kwargs : gmap string pyval)
    (self : FlowMatching Subnet Projector Base)
    (xz : matrix) (conditions : option matrix) (args : gmap string pyval)
    (x : metrics_input) (stage : string) (w : world) :
  __init__ Subnet Projector Base base_init find_network new_projector
           subnet_name base_distribution use_ot ot_kwargs ctor_kwargs = Some self ->
  construct' RK2 = construct RK2 ->
  let rk2 := construct RK2 in
  let density := truthy (get args "density" (PBool false)) in
  let steps := get (delete "density" args) "steps" (PInt 100) in
  (exists subnet_kwargs : list (string * pyval),
      get ctor_kwargs "subnet_kwargs" (PDict []) = PDict subnet_kwargs /\
      subnet Subnet Projector Base self = find_network subnet_name subnet_kwargs /\
      output_projector Subnet Projector Base self = new_projector) /\
  (forall v : pyval,
      exists self' : FlowMatching Subnet Projector Base,
        __init__ Subnet Projector Base base_init find_network new_projector
                 subnet_name base_distribution use_ot ot_kwargs
                 (<["integrator" := v]> ctor_kwargs) = Some self' /\
        subnet Subnet Projector Base self' = subnet Subnet Projector Base self /\
        output_projector Subnet Projector Base self' = output_projector Subnet Projector Base self /\
        use_optimal_transport Subnet Projector Base self' = use_optimal_transport Subnet Projector Base self /\
        optimal_transport_kwargs Subnet Projector Base self' = optimal_transport_kwargs Subnet Projector Base self) /\
  _forward Subnet Projector Base construct log_prob self xz conditions args w =
    Some (if density then
            let r := integrate Subnet Projector rk2 (subnet Subnet Projector Base self)
                       (output_projector Subnet Projector Base self) xz conditions steps true None in
            SampleDensity r.1 (vadd (log_prob (base Subnet Projector Base self) r.1) r.2)
          else
            Sample (integrate Subnet Projector rk2 (subnet Subnet Projector Base self)
                      (output_projector Subnet Projector Base self) xz conditions steps false None),
          record_integrator RK2 w) /\
  _inverse Subnet Projector Base construct log_prob self xz conditions args w =
    Some (if density then
            let r := integrate Subnet Projector rk2 (subnet Subnet Projector Base self)
                       (output_projector Subnet Projector Base self) xz conditions steps true
                       (Some true) in
            SampleDensity r.1 (vsub (log_prob (base Subnet Projector Base self) xz) r.2)
          else
            Sample (integrate Subnet Projector rk2 (subnet Subnet Projector Base self)
                      (output_projector Subnet Projector Base self) xz conditions steps false
                      (Some true)),
          record_integrator RK2 w) /\
  compute_metrics Subnet Projector Base construct base_compute_metrics
      random_normal random_uniform optimal_transport self x conditions stage w =
    match make_training_pair Subnet Projector Base random_normal random_uniform
            optimal_transport self x conditions w with
    | Some (tp, w1) =>
        Some ({["loss" :=
                 vmean (mean_squared_error (tp_target_velocity tp)
                          (velocity Subnet Projector rk2 (subnet Subnet Projector Base self)
                             (output_projector Subnet Projector Base self) (tp_x tp) (tp_t tp)
                             (tp_conditions tp)))]}
              ∪ base_compute_metrics (base Subnet Projector Base self) (tp_x1 tp) (tp_conditions tp)
                  stage,
              record_integrator RK2 w1)
    | None => None
    end /\
  _forward Subnet Projector Base construct' log_prob self xz conditions args w =
    _forward Subnet Projector Base construct log_prob self xz conditions args w /\
  _inverse Subnet Projector Base construct' log_prob self xz conditions args w =
    _inverse Subnet Projector Base construct log_prob self xz conditions args w /\
  compute_metrics Subnet Projector Base construct' base_compute_metrics
      random_normal random_uniform optimal_transport self x conditions stage w =
    compute_metrics Subnet Projector Base construct base_compute_metrics
      random_normal random_uniform optimal_transport self x conditions stage w.
Proof.
  intros Hinit Hrk2 rk2 density steps.
  assert (Hf : forall c,
            _forward Subnet Projector Base c log_prob self xz conditions args w =
            Some (if density then
                    let r := integrate Subnet Projector (c RK2) (subnet Subnet Projector Base self)
                               (output_projector Subnet Projector Base self) xz conditions steps true
                               None in
                    SampleDensity r.1 (vadd (log_prob (base Subnet Projector Base self) r.1) r.2)
                  else
                    Sample (integrate Subnet Projector (c RK2) (subnet Subnet Projector Base self)
                              (output_projector Subnet Projector Base self) xz conditions steps false
                              None),
                  record_integrator RK2 w)).
  { intros c. unfold density. destruct (truthy _) eqn:Hd.
    - by apply forward_density.
    - by apply forward_plain. }
  assert (Hi : forall c,
            _inverse Subnet Projector Base c log_prob self xz conditions args w =
            Some (if density then
                    let r := integrate Subnet Projector (c RK2) (subnet Subnet Projector Base self)
                               (output_projector Subnet Projector Base self) xz conditions steps true
                               (Some true) in
                    SampleDensity r.1 (vsub (log_prob (base Subnet Projector Base self) xz) r.2)
                  else
                    Sample (integrate Subnet Projector (c RK2) (subnet Subnet Projector Base self)
                              (output_projector Subnet Projector Base self) xz conditions steps false
                              (Some true)),
                  record_integrator RK2 w)).
  { intros c. unfold density. destruct (truthy _) eqn:Hd.
    - by apply inverse_density.
    - by apply inverse_plain. }
  unfold __init__ in Hinit.
  destruct (get ctor_kwargs "subnet_kwargs" (PDict [])) as [| | | | | kw] eqn:Hkw;
    try discriminate Hinit.
  injection Hinit as <-.
  split; [| split; [| split; [| split; [| split; [| split; [| split]]]]]].
  - exists kw. by repeat split.
  - intros v. unfold __init__.
    rewrite (get_insert_ne ctor_kwargs "integrator" "subnet_kwargs") by done.
    rewrite Hkw. eexists. split; [reflexivity |]. by repeat split.
  - apply Hf.
  - apply Hi.
  - apply compute_metrics_unfold.
  - by rewrite !Hf, Hrk2.
  - by rewrite !Hi, Hrk2.
  - rewrite !compute_metrics_unfold. by rewrite Hrk2.
Qed.

(** ** The integrators and the base distribution of the specification *)

(** The module [.integrators] is not among the sources; section 4.3 of the
    specification describes it.  The function approximator and the output
    layer are taken affine here, so that the divergence of the velocity is
    known: it is the trace of the product of the two kernels over the
    state coordinates. *)

(** An affine layer: a kernel given by its rows and a bias. *)
Record affine : Type := {
  a_kernel : list vec;
  a_bias : vec;
}.

Definition affine_apply (l : affine) (x : vec) : vec :=
  vadd (Keras.vecmat (length (a_bias l)) x (a_kernel l)) (a_bias l).

(** A time scalar broadcast to the batch. *)
Definition time_column (t : R) (state : matrix) : matrix :=
  map (fun _ => [t]) state.

Definition mscale (c : R) (m : matrix) : matrix := map (vscale c) m.
Definition madd (a b : matrix) : matrix := zip_with vadd a b.

(** Modelled from the spec: the helper [velocity] of the integrators.
    Section 4.3: the state, the time and the conditions (if present) are
    joined, fed through the approximator and projected by the output
    layer. *)
Definition velocity_model (subnet projector : affine) (state t : matrix)
    (conditions : option matrix) : matrix :=
  let inputs := zip_with app state t in
  let inputs :=
    match conditions with
    | Some c => zip_with app inputs c
    | None => inputs
    end in
  map (fun row => affine_apply projector (affine_apply subnet row)) inputs.

(** Modelled from the spec: the divergence that the integrators compute in
    density mode.  Section 4.3 asks for the exact trace of the Jacobian of
    the velocity with respect to the state; for affine layers it is the sum
    over the [D] state coordinates [j] of the products of row [j] of the
    first kernel with column [j] of the second. *)
Definition divergence_model (subnet projector : affine) (D : nat) : R :=
  vsum (map (fun j =>
               vsum (zip_with (fun w1 w2row => w1 * nth j w2row 0)
                              (nth j (a_kernel subnet) [])
                              (a_kernel projector)))
            (seq 0 D)).

Section Steps.

Variables subnet projector : affine.
Variable conditions : option matrix.

Definition field (x : matrix) (t : R) : matrix :=
  velocity_model subnet projector x (time_column t x) conditions.

(** Modelled from the spec: the update law of [EulerIntegrator].  Section
    4.3: [x + h * v(x, t)]. *)
Definition euler_step (h : R) (x : matrix) (t : R) : matrix :=
  madd x (mscale h (field x t)).

(** Modelled from the spec: the update law of [RK2Integrator].  Section
    4.3: [k1 = v(x, t)], [k2 = v(x + (h/2) k1, t + h/2)], [x + h * k2]. *)
Definition rk2_step (h : R) (x : matrix) (t : R) : matrix :=
  let k1 := field x t in
  let k2 := field (madd x (mscale (h / 2) k1)) (t + h / 2) in
  madd x (mscale h k2).

(** Modelled from the spec: the update law of [RK4Integrator].  Section
    4.3: the classical four stages combined as
    [h/6 * (k1 + 2 k2 + 2 k3 + k4)]. *)
Definition rk4_step (h : R) (x : matrix) (t : R) : matrix :=
  let k1 := field x t in
  let k2 := field (madd x (mscale (h / 2) k1)) (t + h / 2) in
  let k3 := field (madd x (mscale (h / 2) k2)) (t + h / 2) in
  let k4 := field (madd x (mscale h k3)) (t + h) in
  madd x (mscale (h / 6)
            (madd k1 (madd (mscale 2 k2) (madd (mscale 2 k3) k4)))).

Definition step_of (k : integrator_kind) : R -> matrix -> R -> matrix :=
  match k with
  | Euler => euler_step
  | RK2 => rk2_step
  | RK4 => rk4_step
  end.

(** Modelled from the spec: one step of an integrator in density mode.
    Section 4.3: the state moves by the update law, the time by the signed
    step [h], and the divergence enters the trace of every batch element
    with the sign of [h]: plus forward, minus inverse. *)
Definition advance (k : integrator_kind) (h : R) (D : nat)
    (s : matrix * R * vec) : matrix * R * vec :=
  let '(x, t, trace) := s in
  (step_of k h x t, t + h,
   map (fun tr => tr + h * divergence_model subnet projector D) trace).

(** Modelled from the spec: the call of an integrator.  Section 4.3: a
    fixed number [steps] of steps of size [1 / steps]; the forward
    direction runs from time zero to one, the inverse direction from one
    to zero with the step negated.  [steps] is a positive integer. *)
Definition integrate_model (k : integrator_kind) (x : matrix) (steps : pyval)
    (inverse : option bool) : matrix * vec :=
  let n := match steps with PInt n => n | _ => 0%Z end in
  let backwards := default false inverse in
  let h := if backwards then - / IZR n else / IZR n in
  let t0 := if backwards then 1 else 0 in
  let D := length (hd [] x) in
  let '(x', _, trace) :=
    Nat.iter (Z.to_nat n) (advance k h D) (x, t0, map (fun _ => 0) x) in
  (x', trace).

End Steps.

(** Modelled from the spec: the classes [EulerIntegrator], [RK2Integrator]
    and [RK4Integrator] of [.integrators].  Section 4.3: the call returns
    the final state, and the trace with it in density mode. *)
Definition model_integrator (k : integrator_kind) : Integrator affine affine :=
  {| integrate := fun subnet projector x conditions steps density inverse =>
       match density return (if density then (matrix * vec)%type else matrix) with
       | true => integrate_model subnet projector conditions k x steps inverse
       | false => (integrate_model subnet projector conditions k x steps inverse).1
       end;
     velocity := velocity_model |}.

(** Modelled from the spec: the base distribution named ["normal"], made by
    [InferenceNetwork] outside the sources.  Section 6: [log_prob] gives
    one number per batch element; here the log-density of the standard
    normal distribution. *)
Definition normal_log_prob (_ : unit) (z : matrix) : vec :=
  map (fun row => - (vsum (map (fun e => e * e) row) / 2)
                  - INR (length row) / 2 * ln (2 * PI)) z.

(** ** A concrete network *)

Definition w0 : world := {| seed_state := 0; constructed := [] |}.

(** The velocity field that is zero everywhere, on states of one
    coordinate. *)
Definition zero_subnet : affine := {| a_kernel := []; a_bias := [0] |}.
Definition id_projector : affine := {| a_kernel := [[1]]; a_bias := [0] |}.

(** The velocity field [v(x, t) = x] on states of one coordinate. *)
Definition linear_subnet : affine := {| a_kernel := [[1]; [0]]; a_bias := [0] |}.

Definition zero_net : FlowMatching affine affine unit :=
  {| base := tt; use_optimal_transport := false;
     optimal_transport_kwargs := ∅;
     subnet := zero_subnet; output_projector := id_projector |}.

Definition linear_net : FlowMatching affine affine unit :=
  {| base := tt; use_optimal_transport := false;
     optimal_transport_kwargs := default_optimal_transport_kwargs;
     subnet := linear_subnet; output_projector := id_projector |}.

Definition density_on : gmap string pyval := {["density" := PBool true]}.

Lemma density_on_truthy : truthy (get density_on "density" (PBool false)) = true.
Proof. unfold get, density_on. by rewrite lookup_singleton_eq. Qed.

Lemma density_on_steps :
  get (delete "density" density_on) "steps" (PInt 100) = PInt 100.
Proof. unfold get, density_on. by rewrite lookup_delete_ne, lookup_singleton_ne. Qed.

Lemma ln_2PI_gt_1 : 1 < ln (2 * PI).
Proof.
  pose proof PI2_3_2 as Hpi. pose proof exp_le_3 as He.
  rewrite <- (ln_exp 1) at 1. apply ln_increasing; [apply exp_pos | lra].
Qed.

(** On the zero field every step leaves the state and the trace where they
    are. *)
Lemma zero_field_iter (k : integrator_kind) (h : R) (n : nat) (t : R) :
  exists t',
    Nat.iter n (advance zero_subnet id_projector None k h 1) ([[0]], t, [0]) =
    ([[0]], t', [0]).
Proof.
  induction n as [| n (t' & IH)]; [by exists t |].
  exists (t' + h). simpl Nat.iter. rewrite IH.
  unfold advance. f_equal; [f_equal |].
  - destruct k;
      cbv [step_of euler_step rk2_step rk4_step field velocity_model time_column
           madd mscale vadd vscale affine_apply Keras.vecmat zero_subnet
           id_projector a_kernel a_bias];
      simpl; repeat f_equal; ring.
  - simpl. unfold divergence_model, vsum. simpl. f_equal. lra.
Qed.

Lemma zero_field_integrate (k : integrator_kind) (steps : pyval)
    (inverse : option bool) :
  integrate_model zero_subnet id_projector None k [[0]] steps inverse =
  ([[0]], [0]).
Proof.
  unfold integrate_model. simpl hd. simpl length. simpl map.
  match goal with
  | |- context [Nat.iter ?n (advance _ _ _ _ ?h _) (_, ?t, _)] =>
      destruct (zero_field_iter k h n t) as (t' & Hiter)
  end.
  exact (f_equal (fun s : matrix * R * vec =>
                    let '(x', _, trace) := s in (x', trace)) Hiter).
Qed.

(** C2 as stated fails.  On the zero velocity field, where no step size
    matters, the forward log-density of [x = 0] and the inverse log-density
    recomputed on the resulting [z = 0] are the same number
    [- ln (2 pi) / 2], not opposite numbers: they differ from being
    opposite by [ln (2 pi) > 1]. *)
Lemma density_sign_not_opposite :
  let c := - (ln (2 * PI) / 2) in
  _forward affine affine unit model_integrator normal_log_prob
           zero_net [[0]] None density_on w0 =
    Some (SampleDensity [[0]] [c], record_integrator RK2 w0) /\
  _inverse affine affine unit model_integrator normal_log_prob
           zero_net [[0]] None density_on (record_integrator RK2 w0) =
    Some (SampleDensity [[0]] [c],
          record_integrator RK2 (record_integrator RK2 w0)) /\
  [c] <> vneg [c] /\
  1 < Rabs (c - - c).
Proof.
  pose proof ln_2PI_gt_1 as Hln.
  cbv zeta. split; [| split; [| split]].
  - rewrite forward_density by exact density_on_truthy.
    rewrite density_on_steps. cbv zeta.
    change (integrate affine affine (model_integrator RK2) (subnet _ _ _ zero_net)
              (output_projector _ _ _ zero_net) [[0]] None (PInt 100) true None)
      with (integrate_model zero_subnet id_projector None RK2 [[0]] (PInt 100) None).
    rewrite zero_field_integrate. simpl.
    repeat f_equal. unfold vsum. simpl. lra.
  - rewrite inverse_density by exact density_on_truthy.
    rewrite density_on_steps. cbv zeta.
    change (integrate affine affine (model_integrator RK2) (subnet _ _ _ zero_net)
              (output_projector _ _ _ zero_net) [[0]] None (PInt 100) true (Some true))
      with (integrate_model zero_subnet id_projector None RK2 [[0]] (PInt 100)
              (Some true)).
    rewrite zero_field_integrate. simpl.
    repeat f_equal. unfold vsum. simpl. lra.
  - simpl. intros H. injection H as H. lra.
  - rewrite Rabs_left; lra.
Qed.

(** ** The theorems at the concrete network *)

Lemma log_density_forward_plus_inverse_minus_witness :
  let steps := get (delete "density" density_on) "steps" (PInt 100) in
  let f := integrate affine affine (model_integrator RK2) linear_subnet
             id_projector [[1]] None steps true None in
  let i := integrate affine affine (model_integrator RK2) linear_subnet
             id_projector [[2]] None steps true (Some true) in
  _forward affine affine unit model_integrator normal_log_prob
           linear_net [[1]] None density_on w0 =
    Some (SampleDensity f.1 (vadd (normal_log_prob tt f.1) f.2),
          record_integrator RK2 w0) /\
  _inverse affine affine unit model_integrator normal_log_prob
           linear_net [[2]] None density_on w0 =
    Some (SampleDensity i.1 (vsub (normal_log_prob tt [[2]]) i.2),
          record_integrator RK2 w0).
Proof.
  apply (log_density_forward_plus_inverse_minus affine affine unit
           model_integrator normal_log_prob linear_net [[1]] [[2]] None
           density_on w0).
  reflexivity.
Defined.

Lemma density_forward_inverse_relation_witness :
  let steps := get (delete "density" density_on) "steps" (PInt 100) in
  let f := integrate affine affine (model_integrator RK2) linear_subnet
             id_projector [[1]] None steps true None in
  let i := integrate affine affine (model_integrator RK2) linear_subnet
             id_projector f.1 None steps true (Some true) in
  exists lf li : vec,
    _forward affine affine unit model_integrator normal_log_prob
             linear_net [[1]] None density_on w0 =
      Some (SampleDensity f.1 lf, record_integrator RK2 w0) /\
    _inverse affine affine unit model_integrator normal_log_prob
             linear_net f.1 None density_on (record_integrator RK2 w0) =
      Some (SampleDensity i.1 li,
            record_integrator RK2 (record_integrator RK2 w0)) /\
    vsub lf li = vadd f.2 i.2 /\
    (i.2 = vneg f.2 -> li = lf).
Proof.
  apply (density_forward_inverse_relation affine affine unit
           model_integrator normal_log_prob linear_net [[1]] None
           density_on w0).
  - reflexivity.
  - reflexivity.
  - reflexivity.
Defined.

Definition integrator_requested : gmap string pyval :=
  {["integrator" := PStr "euler"]}.

Lemma integrator_always_rk2_witness :
  let rk2 := model_integrator RK2 in
  let density := truthy (get density_on "density" (PBool false)) in
  let steps := get (delete "density" density_on) "steps" (PInt 100) in
  (exists subnet_kwargs : list (string * pyval),
      get integrator_requested "subnet_kwargs" (PDict []) = PDict subnet_kwargs /\
      subnet affine affine unit linear_net = linear_subnet /\
      output_projector affine affine unit linear_net = id_projector) /\
  (forall v : pyval,
      exists self' : FlowMatching affine affine unit,
        __init__ affine affine unit (fun _ _ => tt) (fun _ _ => linear_subnet)
                 id_projector "mlp" "normal" false None
                 (<["integrator" := v]> integrator_requested) = Some self' /\
        subnet affine affine unit self' = subnet affine affine unit linear_net /\
        output_projector affine affine unit self' =
          output_projector affine affine unit linear_net /\
        use_optimal_transport affine affine unit self' =
          use_optimal_transport affine affine unit linear_net /\
        optimal_transport_kwargs affine affine unit self' =
          optimal_transport_kwargs affine affine unit linear_net) /\
  _forward affine affine unit model_integrator normal_log_prob linear_net
           [[1]] None density_on w0 =
    Some (if density then
            let r := integrate affine affine rk2
                       (subnet affine affine unit linear_net)
                       (output_projector affine affine unit linear_net)
                       [[1]] None steps true None in
            SampleDensity r.1
              (vadd (normal_log_prob (base affine affine unit linear_net) r.1) r.2)
          else
            Sample (integrate affine affine rk2
                      (subnet affine affine unit linear_net)
                      (output_projector affine affine unit linear_net)
                      [[1]] None steps false None),
          record_integrator RK2 w0) /\
  _inverse affine affine unit model_integrator normal_log_prob linear_net
           [[1]] None density_on w0 =
    Some (if density then
            let r := integrate affine affine rk2
                       (subnet affine affine unit linear_net)
                       (output_projector affine affine unit linear_net)
                       [[1]] None steps true (Some true) in
            SampleDensity r.1
              (vsub (normal_log_prob (base affine affine unit linear_net) [[1]])
                    r.2)
          else
            Sample (integrate affine affine rk2
                      (subnet affine affine unit linear_net)
                      (output_projector affine affine unit linear_net)
                      [[1]] None steps false (Some true)),
          record_integrator RK2 w0) /\
  compute_metrics affine affine unit model_integrator
      (fun _ _ _ _ => ∅) (fun _ _ => [[0]]) (fun _ _ => [/ 2])
      (fun x1 x0 c g _ => (x1, x0, c, S g)) linear_net (XTensor [[1]]) None
      "training" w0 =
    match make_training_pair affine affine unit (fun _ _ => [[0]])
            (fun _ _ => [/ 2]) (fun x1 x0 c g _ => (x1, x0, c, S g))
            linear_net (XTensor [[1]]) None w0 with
    | Some (tp, w1) =>
        Some ({["loss" :=
                 vmean (mean_squared_error (tp_target_velocity tp)
                          (velocity affine affine rk2
                             (subnet affine affine unit linear_net)
                             (output_projector affine affine unit linear_net)
                             (tp_x tp) (tp_t tp) (tp_conditions tp)))]}
              ∪ (fun _ _ _ _ => ∅) (base affine affine unit linear_net)
                  (tp_x1 tp) (tp_conditions tp) "training",
              record_integrator RK2 w1)
    | None => None
    end /\
  _forward affine affine unit (fun _ => model_integrator RK2) normal_log_prob
           linear_net [[1]] None density_on w0 =
    _forward affine affine unit model_integrator normal_log_prob linear_net
             [[1]] None density_on w0 /\
  _inverse affine affine unit (fun _ => model_integrator RK2) normal_log_prob
           linear_net [[1]] None density_on w0 =
    _inverse affine affine unit model_integrator normal_log_prob linear_net
             [[1]] None density_on w0 /\
  compute_metrics affine affine unit (fun _ => model_integrator RK2)
      (fun _ _ _ _ => ∅) (fun _ _ => [[0]]) (fun _ _ => [/ 2])
      (fun x1 x0 c g _ => (x1, x0, c, S g)) linear_net (XTensor [[1]]) None
      "training" w0 =
    compute_metrics affine affine unit model_integrator
      (fun _ _ _ _ => ∅) (fun _ _ => [[0]]) (fun _ _ => [/ 2])
      (fun x1 x0 c g _ => (x1, x0, c, S g)) linear_net (XTensor [[1]]) None
      "training" w0.
Proof.
  apply (integrator_always_rk2 model_integrator (fun _ => model_integrator RK2)
           normal_log_prob (fun _ _ => tt) (fun _ _ _ _ => ∅)
           (fun _ _ => linear_subnet) id_projector
           (fun _ _ => [[0]]) (fun _ _ => [/ 2])
           (fun x1 x0 c g _ => (x1, x0, c, S g))
           "mlp" "normal" false None integrator_requested linear_net
           [[1]] None density_on (XTensor [[1]]) "training" w0).
  - reflexivity.
  - reflexivity.
Defined.

Lemma call_other_keywords_dropped_witness :
  call affine affine unit model_integrator normal_log_prob linear_net [[1]]
       None (<["integrator" := PStr "euler"]> density_on) w0 =
    call affine affine unit model_integrator normal_log_prob linear_net [[1]]
         None density_on w0 /\
  _forward affine affine unit model_integrator normal_log_prob linear_net [[1]]
           None (<["integrator" := PStr "euler"]> density_on) w0 =
    _forward affine affine unit model_integrator normal_log_prob linear_net
             [[1]] None density_on w0 /\
  _inverse affine affine unit model_integrator normal_log_prob linear_net [[1]]
           None (<["integrator" := PStr "euler"]> density_on) w0 =
    _inverse affine affine unit model_integrator normal_log_prob linear_net
             [[1]] None density_on w0.
Proof.
  apply (call_other_keywords_dropped affine affine unit model_integrator
           normal_log_prob linear_net [[1]] None density_on "integrator"
           (PStr "euler") w0).
  unfold read_keywords, parameter_names. simpl.
  intros H. repeat (apply elem_of_cons in H as [H | H]; [discriminate H |]).
  by apply elem_of_nil in H.
Defined.

Lemma compute_metrics_fresh_seeds_witness :
  exists (metrics : gmap string R) (w1 : world) (tp : training_pair) (w2 : world),
    compute_metrics affine affine unit model_integrator (fun _ _ _ _ => ∅)
      (fun _ s => [[INR s]]) (fun _ s => [/ INR (S s)])
      (fun x1 x0 c g _ => (x1, x0, c, S g)) linear_net (XTensor [[1]]) None
      "training" w0 = Some (metrics, w1) /\
    seed_state w1 = (seed_state w0 + 2)%nat /\
    make_training_pair affine affine unit (fun _ s => [[INR s]])
      (fun _ s => [/ INR (S s)]) (fun x1 x0 c g _ => (x1, x0, c, S g))
      linear_net (XTensor [[5]]) None w1 = Some (tp, w2) /\
    tp_x0 tp = [[INR (seed_state w0 + 2)]] /\
    tp_t tp =
      expand_right_as [/ INR (S (seed_state w0 + 3))] (tp_x0 tp) /\
    seed_state w2 = (seed_state w0 + 4)%nat.
Proof.
  apply (compute_metrics_fresh_seeds affine affine unit model_integrator
           (fun _ _ _ _ => ∅) (fun _ s => [[INR s]]) (fun _ s => [/ INR (S s)])
           (fun x1 x0 c g _ => (x1, x0, c, S g)) linear_net [[1]] [[5]]
           None None "training" w0).
  reflexivity.
Defined.

(** [build] with layers that record the shape they are built for: states
    of shape (None, 3) and conditions of shape (None, 2) give the subnet
    inputs of shape (None, 6), and the output layer three units. *)
Example build_records_shapes :
  build (list (option nat)) (list (option nat) * option nat) unit
        (fun b _ => Some b) (fun _ input_shape => Some input_shape)
        (fun _ input_shape => Some input_shape)
        (fun p units => (p.1, units)) (fun p out_shape => Some (out_shape, p.2))
        {| base := tt; use_optimal_transport := false;
           optimal_transport_kwargs := ∅; subnet := [];
           output_projector := ([], None) |}
        [None; Some 3%nat] (Some [None; Some 2%nat]) =
  Some {| base := tt; use_optimal_transport := false;
          optimal_transport_kwargs := ∅; subnet := [None; Some 6%nat];
          output_projector := ([None; Some 6%nat], Some 3%nat) |}.
Proof. reflexivity. Qed.

(** C6 as stated fails in the arithmetic of the program.  The target
    velocity [2^-100] against the predicted velocity zero has the squared
    difference [2^-200], below the smallest binary32 number: it rounds to
    zero and the loss is zero, although prediction and target differ.  And
    the loss of an empty batch is NaN, no number at all. *)
Lemma loss_zero_without_equality :
  let target_velocity := [[SpecFloat.S754_finite false 8388608 (-123)]] in
  let predicted_velocity := [[Float32.zero]] in
  Float32.loss target_velocity predicted_velocity = Float32.zero /\
  predicted_velocity <> target_velocity /\
  Float32.loss [] [] = SpecFloat.S754_nan.
Proof.
  split; [vm_compute; reflexivity |].
  split; [discriminate | vm_compute; reflexivity].
Qed.

(** ** Values of the integrators and of the loss *)

Example rk2_one_step_forward :
  integrate_model linear_subnet id_projector None RK2 [[2]] (PInt 1) None =
  ([[5]], [1]).
Proof. eval_reals. repeat f_equal; field. Qed.

Example rk2_one_step_inverse :
  integrate_model linear_subnet id_projector None RK2 [[2]] (PInt 1) (Some true) =
  ([[1]], [-1]).
Proof. eval_reals. repeat f_equal; field. Qed.

Example euler_one_step_forward :
  integrate_model linear_subnet id_projector None Euler [[2]] (PInt 1) None =
  ([[4]], [1]).
Proof. eval_reals. repeat f_equal; field. Qed.

Example rk2_two_steps_forward :
  integrate_model linear_subnet id_projector None RK2 [[1]] (PInt 2) None =
  ([[169 / 64]], [1]).
Proof. eval_reals. repeat f_equal; field. Qed.

Example velocity_linear :
  velocity_model linear_subnet id_projector [[1]] [[/ 2]] None = [[1]].
Proof. eval_reals. repeat f_equal; field. Qed.

Example metrics_preconfigured_value :
  exists metrics w',
    compute_metrics affine affine unit model_integrator
      (fun _ _ _ _ => ∅) (fun _ _ => [[0]]) (fun _ _ => [/ 2])
      (fun x1 x0 c g _ => (x1, x0, c, S g)) linear_net
      (XSequence [[[0]]; [[2]]; [[/ 2]]; [[1]]; [[2]]]) None "training" w0 =
    Some (metrics, w') /\
    metrics !! "loss" = Some 1 /\ seed_state w' = 0%nat.
Proof.
  eexists _, _. rewrite compute_metrics_unfold. simpl.
  split; [reflexivity |]. split; [| reflexivity].
  rewrite lookup_union_l', lookup_singleton_eq;
    [| rewrite lookup_singleton_eq; eauto].
  f_equal. eval_reals. simpl. field.
Qed.

Example metrics_sampled_value :
  exists metrics w',
    compute_metrics affine affine unit model_integrator
      (fun _ _ _ _ => ∅) (fun _ _ => [[0]]) (fun _ _ => [/ 2])
      (fun x1 x0 c g _ => (x1, x0, c, S g)) linear_net
      (XTensor [[1]]) None "training" w0 =
    Some (metrics, w') /\
    metrics !! "loss" = Some (/ 4) /\ seed_state w' = 2%nat /\
    constructed w' = [RK2].
Proof.
  eexists _, _. rewrite compute_metrics_unfold, make_training_pair_tensor. simpl.
  split; [reflexivity |]. split; [| split; reflexivity].
  rewrite lookup_union_l', lookup_singleton_eq;
    [| rewrite lookup_singleton_eq; eauto].
  f_equal. eval_reals. simpl. field.
Qed.

End FlowMatching.

(* ================================================================== *)
(** * The losses on real tensors: sbi/losses.py and bayesflow/losses.py *)
(* ================================================================== *)

Module RealLosses.
Import Tensor FlowMatching.

Local Open Scope R_scope.

(** [tf.math.square] on a vector. *)
Definition square (v : vec) : vec := map (fun e => e * e) v.

(** [tf.norm(z, axis=-1)] of one row: the Euclidean norm.  The square root
    is the exact one; TensorFlow rounds it, so what is proved of a norm
    does not use that its square is the sum of squares, only that a square
    is not negative and that the norm of zeros is zero. *)
Definition norm (row : vec) : R := sqrt (vsum (square row)).

(** sbi/losses.py, [mean_squared_loss(model, params, x)].  Squares and
    sums are exact here; in floating point the square of a small
    difference is zero, so a loss of zero does not give back that the
    prediction is the parameters, and nothing of that kind is proved. *)
Definition mean_squared_loss {X : Type} (model : X -> matrix)
    (params : matrix) (x : X) : R :=
  let params_pred := model x in
  vmean (map vsum (map square (bmat Rminus params params_pred))).


(** bayesflow/losses.py, [kl_latent_space_gaussian(z, log_det_J)]. *)
Definition kl_latent_space_gaussian (z : matrix) (log_det_J : vec) : R :=
  vmean (bvec Rminus (map (fun row => / 2 * (norm row * norm row)) z) log_det_J).

(** sbi/losses.py, [kl_latent_space(network, params, sim_data)]. *)
Definition kl_latent_space {P D : Type} (network : P -> D -> matrix * vec)
    (params : P) (sim_data : D) : R :=
  let '(z, log_det_J) := network params sim_data in
  vmean (bvec Rminus (map (fun row => / 2 * (norm row * norm row)) z) log_det_J).

(** ** Sums and means *)





Lemma square_nonneg (v : vec) : Forall (fun e => 0 <= e) (square v).
Proof. apply squares_nonneg. Qed.

(** ** The squared loss *)

Lemma mean_squared_loss_rows (B D : nat) (params pred : matrix) :
  mat_shape B D params -> mat_shape B D pred ->
  map vsum (map square (bmat Rminus params pred)) =
  zip_with (fun p q => vsum (square (zip_with Rminus p q))) params pred.
Proof.
  intros Hp Hq. rewrite (bmat_same_shape Rminus B D) by done.
  destruct Hp as [_ Hp]. clear Hq. revert pred.
  induction Hp as [| p params _ _ IH]; intros [| q pred]; simpl; try reflexivity.
  f_equal. apply IH.
Qed.

(** X5. The squared loss is not negative, it is zero when the model
    returns the parameters, and it is the same when prediction and
    parameters change places. *)
Theorem mean_squared_loss_nonneg_sym {X : Type} (model : X -> matrix)
    (params : matrix) (x : X) (B D : nat) :
  (1 <= B)%nat -> mat_shape B D params -> mat_shape B D (model x) ->
  0 <= mean_squared_loss model params x /\
  (model x = params -> mean_squared_loss model params x = 0) /\
  mean_squared_loss model params x =
    mean_squared_loss (fun _ : X => params) (model x) x.
Proof.
  intros HB Hp Hq. unfold mean_squared_loss. cbv zeta.
  rewrite !(mean_squared_loss_rows B D) by done.
  split; [| split].
  - apply vmean_nonneg. apply Forall_forall. intros e He.
    apply list_elem_of_In, list_elem_of_lookup in He as [i He].
    apply lookup_zip_with_Some in He as (p & q & -> & _ & _).
    apply vsum_nonneg, square_nonneg.
  - intros ->. apply vmean_all_zero. apply Forall_forall. intros e He.
    apply list_elem_of_In, list_elem_of_lookup in He as [i He].
    apply lookup_zip_with_Some in He as (p & q & -> & Hp1 & Hp2).
    rewrite Hp1 in Hp2. injection Hp2 as <-.
    clear. unfold vsum, square. induction p as [| a p IH]; simpl;
      [reflexivity | rewrite IH; ring].
  - f_equal. clear. generalize (model x) as pred. revert params.
    induction params as [| p params IH]; intros [| q pred]; simpl;
      try reflexivity.
    f_equal; [| apply IH].
    clear. unfold vsum, square. revert q.
    induction p as [| a p IH]; intros [| b q]; simpl; try reflexivity.
    rewrite IH. ring.
Qed.

Lemma mean_squared_loss_nonneg_sym_witness :
  0 <= mean_squared_loss (fun x : matrix => x) [[1; 2]] [[3; 2]] /\
  ((fun x : matrix => x) [[3; 2]] = [[1; 2]] ->
   mean_squared_loss (fun x : matrix => x) [[1; 2]] [[3; 2]] = 0) /\
  mean_squared_loss (fun x : matrix => x) [[1; 2]] [[3; 2]] =
    mean_squared_loss (fun _ : matrix => [[1; 2]])
                      ((fun x : matrix => x) [[3; 2]]) [[3; 2]].
Proof.
  apply (mean_squared_loss_nonneg_sym (fun x : matrix => x) [[1; 2]] [[3; 2]] 1 2).
  - lia.
  - split; [reflexivity | repeat constructor].
  - split; [reflexivity | repeat constructor].
Defined.

(** ** The heteroscedastic loss *)











(** ** The latent-space KL loss *)

Lemma half_norm_nonneg (z : matrix) :
  Forall (fun e => 0 <= e) (map (fun row => / 2 * (norm row * norm row)) z).
Proof.
  rewrite List.Forall_map. apply Forall_forall. intros row _. simpl. nra.
Qed.

Lemma norm_zero (row : vec) : Forall (fun e => e = 0) row -> norm row = 0.
Proof.
  intros Hz. unfold norm.
  assert (Hs : vsum (square row) = 0).
  { unfold vsum, square. induction Hz as [| e row -> _ IH]; simpl;
      [reflexivity | rewrite IH; ring]. }
  rewrite Hs. apply sqrt_0.
Qed.

Lemma vsum_minus (a b : vec) :
  length a = length b -> vsum (zip_with Rminus a b) = vsum a - vsum b.
Proof.
  unfold vsum. revert b. induction a as [| x a IH]; intros [| y b] Hlen;
    simpl in *; try lia; [ring |].
  rewrite IH by lia. ring.
Qed.

Lemma vmean_minus (a b : vec) :
  length a = length b -> vmean (zip_with Rminus a b) = vmean a - vmean b.
Proof.
  intros Hlen. unfold vmean. rewrite vsum_minus by done.
  rewrite length_zip_with, <- Hlen, Nat.min_id. unfold Rdiv. ring.
Qed.

Lemma kl_latent_space_gaussian_split (z : matrix) (log_det_J : vec) :
  length z = length log_det_J ->
  kl_latent_space_gaussian z log_det_J =
  vmean (map (fun row => / 2 * (norm row * norm row)) z) - vmean log_det_J.
Proof.
  intros Hlen. unfold kl_latent_space_gaussian.
  rewrite bvec_same_length by (rewrite length_map; exact Hlen).
  by rewrite vmean_minus by (rewrite length_map; exact Hlen).
Qed.

Lemma kl_latent_space_network {P D : Type} (network : P -> D -> matrix * vec)
    (params : P) (sim_data : D) (z : matrix) (log_det_J : vec) :
  network params sim_data = (z, log_det_J) ->
  kl_latent_space network params sim_data = kl_latent_space_gaussian z log_det_J.
Proof. intros H. unfold kl_latent_space. by rewrite H. Qed.

(** X8. The latent-space KL loss, of given latent vectors and of the
    latent vectors of a network, is at least minus the mean
    log-determinant; for latent vectors that are all zero it is equal to
    it. *)
Theorem kl_latent_space_gaussian_lower_bound {P D : Type}
    (network : P -> D -> matrix * vec) (params : P) (sim_data : D)
    (z : matrix) (log_det_J : vec) :
  network params sim_data = (z, log_det_J) ->
  (1 <= length z)%nat -> length z = length log_det_J ->
  - vmean log_det_J <= kl_latent_space_gaussian z log_det_J /\
  - vmean log_det_J <= kl_latent_space network params sim_data /\
  (Forall (Forall (fun e => e = 0)) z ->
   kl_latent_space_gaussian z log_det_J = - vmean log_det_J /\
   kl_latent_space network params sim_data = - vmean log_det_J).
Proof.
  intros Hnet HB Hlen. rewrite (kl_latent_space_network _ _ _ _ _ Hnet).
  rewrite kl_latent_space_gaussian_split by done.
  pose proof (vmean_nonneg _ (half_norm_nonneg z)) as Hm.
  split; [lra |]. split; [lra |].
  intros Hz.
  assert (H0 : vmean (map (fun row => / 2 * (norm row * norm row)) z) = 0).
  { apply vmean_all_zero. rewrite List.Forall_map.
    eapply List.Forall_impl; [| exact Hz]. intros row Hrow. simpl.
    rewrite (norm_zero row Hrow). ring. }
  rewrite H0. split; ring.
Qed.

Lemma kl_latent_space_gaussian_lower_bound_witness :
  - vmean [1; 2] <= kl_latent_space_gaussian [[3; 4]; [0; 0]] [1; 2] /\
  - vmean [1; 2] <=
    kl_latent_space (fun _ _ : unit => ([[3; 4]; [0; 0]], [1; 2])) tt tt /\
  (Forall (Forall (fun e => e = 0)) [[3; 4]; [0; 0]] ->
   kl_latent_space_gaussian [[3; 4]; [0; 0]] [1; 2] = - vmean [1; 2] /\
   kl_latent_space (fun _ _ : unit => ([[3; 4]; [0; 0]], [1; 2])) tt tt =
     - vmean [1; 2]).
Proof.
  apply (kl_latent_space_gaussian_lower_bound
           (fun _ _ : unit => ([[3; 4]; [0; 0]], [1; 2])) tt tt
           [[3; 4]; [0; 0]] [1; 2]);
    [reflexivity | simpl; lia | reflexivity].
Defined.

(** A latent vector of norm five and log-determinant one: 25/2 - 1. *)
Example kl_latent_space_value :
  kl_latent_space (fun _ _ : unit => ([[3; 4]], [1])) tt tt = 23 / 2.
Proof.
  assert (Hn : norm [3; 4] = 5).
  { unfold norm, square, vsum. simpl.
    replace (3 * 3 + (4 * 4 + 0)) with (5 * 5) by ring.
    apply sqrt_square. lra. }
  unfold kl_latent_space. simpl. rewrite Hn.
  eval_reals. simpl. field.
Qed.

End RealLosses.

(* ================================================================== *)
(** * The maximum mean discrepancy of sbi/losses.py *)
(* ================================================================== *)

Module MMD.
Import Tensor.

Local Open Scope R_scope.

(** A TensorFlow tensor of any rank: its shape, and its entries by index.
    The entries at indices outside the shape play no role. *)
Record tensor : Type := {
  tshape : list nat;
  tdata : list nat -> R;
}.

(** The number of entries of a shape. *)
Definition num_entries (sh : list nat) : nat := foldr Nat.mul 1%nat sh.

(** The position of an index in row-major order, and back. *)
Fixpoint ravel (sh ix : list nat) : nat :=
  match sh, ix with
  | _ :: sh', i :: ix' => (i * num_entries sh' + ravel sh' ix')%nat
  | _, _ => 0%nat
  end.

Fixpoint unravel (sh : list nat) (k : nat) : list nat :=
  match sh with
  | [] => []
  | _ :: sh' => (k / num_entries sh')%nat :: unravel sh' (k mod num_entries sh')
  end.

(** The sum of [f 0 .. f (n - 1)]. *)
Definition sum_upto (n : nat) (f : nat -> R) : R := vsum (map f (seq 0 n)).

(** A Python list of floats as a tensor of one axis. *)
Definition constant (v : list R) : tensor :=
  {| tshape := [length v]; tdata := fun ix => nth (hd 0%nat ix) v 0 |}.

(** An operation on every entry. *)
Definition tmap (f : R -> R) (t : tensor) : tensor :=
  {| tshape := tshape t; tdata := fun ix => f (tdata t ix) |}.

(** [tf.expand_dims(t, axis)] for an axis counted from the front; an axis
    beyond the rank is an error. *)
Definition expand_dims (t : tensor) (axis : nat) : option tensor :=
  if decide (axis <= length (tshape t))%nat
  then Some {| tshape := take axis (tshape t) ++ 1%nat :: drop axis (tshape t);
               tdata := fun ix => tdata t (take axis ix ++ drop (S axis) ix) |}
  else None.

(** [tf.transpose(t)]: the axes in reverse order. *)
Definition transpose (t : tensor) : tensor :=
  {| tshape := reverse (tshape t); tdata := fun ix => tdata t (reverse ix) |}.

(** Broadcasting of NumPy and TensorFlow: the shapes are aligned at the
    last axis, an axis of size one is stretched, other sizes must agree. *)
Definition pad_left (r : nat) (sh : list nat) : list nat :=
  replicate (r - length sh) 1%nat ++ sh.

Definition broadcast_dim (a b : nat) : option nat :=
  if (a =? b)%nat then Some a
  else if (a =? 1)%nat then Some b
  else if (b =? 1)%nat then Some a
  else None.

Definition broadcast_shapes (sa sb : list nat) : option (list nat) :=
  let r := (length sa `max` length sb)%nat in
  mapM (fun ab => broadcast_dim ab.1 ab.2) (zip (pad_left r sa) (pad_left r sb)).

(** The index into an operand of shape [sh] for the index [ix] of the
    result. *)
Definition operand_index (sh ix : list nat) : list nat :=
  zip_with (fun d i => if (d =? 1)%nat then 0%nat else i)
           sh (drop (length ix - length sh) ix).

Definition broadcast2 (f : R -> R -> R) (a b : tensor) : option tensor :=
  sh ← broadcast_shapes (tshape a) (tshape b);
  Some {| tshape := sh;
          tdata := fun ix => f (tdata a (operand_index (tshape a) ix))
                               (tdata b (operand_index (tshape b) ix)) |}.

(** [tf.reduce_sum(t, axis)]. *)
Definition reduce_sum (t : tensor) (axis : nat) : option tensor :=
  if decide (axis < length (tshape t))%nat
  then Some {| tshape := take axis (tshape t) ++ drop (S axis) (tshape t);
               tdata := fun ix =>
                 sum_upto (nth axis (tshape t) 0%nat)
                          (fun k => tdata t (take axis ix ++ k :: drop axis ix)) |}
  else None.

(** [tf.matmul] of two matrices; the code applies it to tensors of two
    axes only. *)
Definition matmul (a b : tensor) : option tensor :=
  match tshape a, tshape b with
  | [p; q], [q'; r] =>
      if decide (q = q')
      then Some {| tshape := [p; r];
                   tdata := fun ix =>
                     match ix with
                     | [i; j] => sum_upto q (fun k => tdata a [i; k] * tdata b [k; j])
                     | _ => 0
                     end |}
      else None
  | _, _ => None
  end.

(** [tf.reshape(t, sh)]: the entries keep their row-major order. *)
Definition reshape (t : tensor) (sh : list nat) : option tensor :=
  if decide (num_entries sh = num_entries (tshape t))
  then Some {| tshape := sh;
               tdata := fun ix => tdata t (unravel (tshape t) (ravel sh ix)) |}
  else None.

(** [tf.reduce_mean(t)] over all axes.  On a tensor without entries
    TensorFlow gives NaN and this gives zero: what is proved of a mean takes
    tensors that have entries. *)
Definition reduce_mean (t : tensor) : R :=
  sum_upto (num_entries (tshape t)) (fun k => tdata t (unravel (tshape t) k))
  / INR (num_entries (tshape t)).

(** sbi/losses.py, [_gaussian_kernel_matrix(x, y, sigmas)].  In
    [tf.reshape(dist, (1, -1))] the second size is the number of entries of
    [dist]. *)
Definition _gaussian_kernel_matrix (x y : tensor) (sigmas : list R)
  : option tensor :=
  sig ← expand_dims (constant sigmas) 1;
  let beta := tmap (fun s => 1 / (2 * s)) sig in
  let norm (t : tensor) := reduce_sum (tmap (fun e => e * e) t) 1 in
  x3 ← expand_dims x 2;
  diff ← broadcast2 Rminus x3 (transpose y);
  n ← norm diff;
  let dist := transpose n in
  flat ← reshape dist [1%nat; num_entries (tshape dist)];
  s ← matmul beta flat;
  r ← reduce_sum (tmap exp (tmap Ropp s)) 0;
  reshape r (tshape dist).

(** sbi/losses.py, [_mmd_kernel(x, y, kernel)]. *)
Definition _mmd_kernel (x y : tensor)
    (kernel : tensor -> tensor -> option tensor) : option R :=
  kxx ← kernel x x;
  let loss := reduce_mean kxx in
  kyy ← kernel y y;
  let loss := loss + reduce_mean kyy in
  kxy ← kernel x y;
  let loss := loss - 2 * reduce_mean kxy in
  Some loss.

Definition sigmas : list R :=
  [/ 10 ^ 6; / 10 ^ 5; / 10 ^ 4; / 10 ^ 3; / 10 ^ 2; / 10; 1; 5; 10; 15; 20; 25;
   30; 35; 100; 10 ^ 3; 10 ^ 4; 10 ^ 5; 10 ^ 6].

(** sbi/losses.py, [maximum_mean_discrepancy(source_samples,
    target_samples, weight=1., minimum=0., **args)]; the other keywords are
    not read. *)
Definition maximum_mean_discrepancy (source_samples target_samples : tensor)
    (weight minimum : R) : option R :=
  let gaussian_kernel x y := _gaussian_kernel_matrix x y sigmas in
  loss_value ← _mmd_kernel source_samples target_samples gaussian_kernel;
  let loss_value := Rmax minimum loss_value * weight in
  Some loss_value.

(** The squared distance between row [m] of [x] and row [n] of [y], on
    [F] features. *)
Definition sqdist (F : nat) (x y : tensor) (m n : nat) : R :=
  sum_upto F (fun f => (tdata x [m; f] - tdata y [n; f]) *
                       (tdata x [m; f] - tdata y [n; f])).

(** The kernel of the code between two rows at squared distance [d]. *)
Definition rbf_sum (sigmas : list R) (d : R) : R :=
  vsum (map (fun s => exp (- (d / (2 * s)))) sigmas).

(** ** Sums *)

Lemma sum_upto_ext (n : nat) (f g : nat -> R) :
  (forall k, (k < n)%nat -> f k = g k) -> sum_upto n f = sum_upto n g.
Proof.
  intros H. unfold sum_upto. f_equal. apply map_ext_in. intros k Hk.
  apply in_seq in Hk. apply H. lia.
Qed.

Lemma sum_upto_S (n : nat) (f : nat -> R) :
  sum_upto (S n) f = sum_upto n f + f n.
Proof.
  unfold sum_upto, vsum. rewrite seq_S, map_app, foldr_app. simpl.
  generalize (map f (seq 0 n)) as l. intros l.
  induction l as [| a l IH]; simpl; [ring | rewrite IH; ring].
Qed.

Lemma sum_upto_0 (f : nat -> R) : sum_upto 0 f = 0.
Proof. reflexivity. Qed.

Lemma sum_upto_nth (v : list R) (g : R -> R) :
  sum_upto (length v) (fun i => g (nth i v 0)) = vsum (map g v).
Proof.
  unfold sum_upto. f_equal.
  induction v as [| a v IH]; [reflexivity |].
  simpl length. rewrite <- cons_seq, <- fmap_S_seq. simpl.
  f_equal. rewrite <- IH. rewrite map_map. reflexivity.
Qed.

Lemma sum_upto_plus (n : nat) (f g : nat -> R) :
  sum_upto n (fun k => f k + g k) = sum_upto n f + sum_upto n g.
Proof.
  induction n as [| n IH]; [rewrite !sum_upto_0; ring |].
  rewrite !sum_upto_S, IH. ring.
Qed.

Lemma sum_upto_swap (N M : nat) (g : nat -> nat -> R) :
  sum_upto N (fun n => sum_upto M (fun m => g n m)) =
  sum_upto M (fun m => sum_upto N (fun n => g n m)).
Proof.
  induction N as [| N IH].
  - rewrite sum_upto_0. symmetry.
    induction M as [| M IHM]; [reflexivity |].
    rewrite sum_upto_S, IHM, sum_upto_0. ring.
  - rewrite sum_upto_S, IH, <- sum_upto_plus.
    apply sum_upto_ext. intros m _. by rewrite sum_upto_S.
Qed.

(** The sum over a matrix in row-major order is the sum over its rows. *)
Lemma sum_upto_rows (N M : nat) (g : nat -> nat -> R) :
  sum_upto (N * M) (fun k => g (k / M)%nat (k mod M)%nat) =
  sum_upto N (fun n => sum_upto M (fun m => g n m)).
Proof.
  induction N as [| N IH]; [reflexivity |].
  rewrite sum_upto_S, <- IH.
  replace (S N * M)%nat with (N * M + M)%nat by lia.
  clear IH.
  assert (Hgen : forall j, (j <= M)%nat ->
            sum_upto (N * M + j) (fun k => g (k / M)%nat (k mod M)%nat) =
            sum_upto (N * M) (fun k => g (k / M)%nat (k mod M)%nat) +
            sum_upto j (fun m => g N m)).
  { induction j as [| j IHj]; intros Hj.
    - rewrite Nat.add_0_r, sum_upto_0. ring.
    - replace (N * M + S j)%nat with (S (N * M + j)) by lia.
      rewrite !sum_upto_S, IHj by lia.
      assert (Hd : ((N * M + j) / M = N)%nat).
      { rewrite Nat.div_add_l by lia. rewrite Nat.div_small by lia. lia. }
      assert (Hm : ((N * M + j) mod M = j)%nat).
      { rewrite Nat.add_comm, Nat.Div0.mod_add. apply Nat.mod_small. lia. }
      rewrite Hd, Hm. ring. }
  apply Hgen. lia.
Qed.

(** ** The Gaussian kernel *)

Lemma broadcast_dim_same (a : nat) : broadcast_dim a a = Some a.
Proof. unfold broadcast_dim. by rewrite Nat.eqb_refl. Qed.

Lemma broadcast_dim_one_r (a : nat) : broadcast_dim a 1 = Some a.
Proof.
  unfold broadcast_dim. destruct (a =? 1)%nat eqn:H; [reflexivity |].
  reflexivity.
Qed.

Lemma broadcast_dim_one_l (b : nat) : broadcast_dim 1 b = Some b.
Proof.
  unfold broadcast_dim. destruct (1 =? b)%nat eqn:H; [| reflexivity].
  apply Nat.eqb_eq in H. by subst.
Qed.

Lemma broadcast_shapes_rows (M F N : nat) :
  broadcast_shapes [M; F; 1%nat] [F; N] = Some [M; F; N].
Proof.
  unfold broadcast_shapes, pad_left.
  change (mapM (fun ab : nat * nat => broadcast_dim ab.1 ab.2)
               [(M, 1%nat); (F, F); (1%nat, N)] = Some [M; F; N]).
  rewrite !mapM_cons. cbn [fst snd].
  by rewrite broadcast_dim_one_r, broadcast_dim_same, broadcast_dim_one_l.
Qed.

Lemma in_range_index (d i : nat) :
  (i < d)%nat -> (if (d =? 1)%nat then 0%nat else i) = i.
Proof.
  intros Hi. destruct (d =? 1)%nat eqn:H; [| reflexivity].
  apply Nat.eqb_eq in H. lia.
Qed.

Lemma expand_dims_Some (t : tensor) (axis : nat) :
  (axis <= length (tshape t))%nat ->
  expand_dims t axis =
  Some {| tshape := take axis (tshape t) ++ 1%nat :: drop axis (tshape t);
          tdata := fun ix => tdata t (take axis ix ++ drop (S axis) ix) |}.
Proof. intros H. unfold expand_dims. by rewrite decide_True. Qed.

Lemma reduce_sum_Some (t : tensor) (axis : nat) :
  (axis < length (tshape t))%nat ->
  reduce_sum t axis =
  Some {| tshape := take axis (tshape t) ++ drop (S axis) (tshape t);
          tdata := fun ix =>
            sum_upto (nth axis (tshape t) 0%nat)
                     (fun k => tdata t (take axis ix ++ k :: drop axis ix)) |}.
Proof. intros H. unfold reduce_sum. by rewrite decide_True. Qed.

Lemma reshape_Some (t : tensor) (sh : list nat) :
  num_entries sh = num_entries (tshape t) ->
  reshape t sh =
  Some {| tshape := sh;
          tdata := fun ix => tdata t (unravel (tshape t) (ravel sh ix)) |}.
Proof. intros H. unfold reshape. by rewrite decide_True. Qed.

Lemma matmul_Some (a b : tensor) (p q r : nat) :
  tshape a = [p; q] -> tshape b = [q; r] ->
  matmul a b =
  Some {| tshape := [p; r];
          tdata := fun ix =>
            match ix with
            | [i; j] => sum_upto q (fun k => tdata a [i; k] * tdata b [k; j])
            | _ => 0
            end |}.
Proof. intros Ha Hb. unfold matmul. rewrite Ha, Hb. by rewrite decide_True. Qed.

Lemma sum_upto_1 (f : nat -> R) : sum_upto 1 f = f 0%nat.
Proof. unfold sum_upto, vsum. simpl. ring. Qed.

Lemma row_major_index (N M n m : nat) :
  (m < M)%nat ->
  let k := (0 * (N * (M * 1) * 1) +
            ((n * (M * 1) + (m * 1 + 0)) / 1 * 1 + 0))%nat in
  ((k / (M * 1))%nat = n) /\ (((k mod (M * 1)) / 1)%nat = m).
Proof.
  intros Hm k.
  assert (Hk : k = (n * M + m)%nat).
  { unfold k. rewrite Nat.div_1_r. lia. }
  rewrite Hk, Nat.mul_1_r, Nat.div_1_r. split.
  - rewrite Nat.div_add_l by lia. rewrite Nat.div_small by lia. lia.
  - rewrite Nat.add_comm, Nat.Div0.mod_add. apply Nat.mod_small. lia.
Qed.

Lemma gaussian_kernel_defined (x y : tensor) (sigmas : list R) (M N F : nat) :
  tshape x = [M; F] -> tshape y = [N; F] ->
  exists K, _gaussian_kernel_matrix x y sigmas = Some K /\
            tshape K = [N; M] /\
            forall n m, (n < N)%nat -> (m < M)%nat ->
              tdata K [n; m] = rbf_sum sigmas (sqdist F x y m n).
Proof.
  destruct x as [shx dx], y as [shy dy]. simpl. intros -> ->.
  unfold _gaussian_kernel_matrix.
  rewrite (expand_dims_Some (constant sigmas) 1) by (simpl; lia).
  cbn [mbind option_bind].
  rewrite (expand_dims_Some {| tshape := [M; F]; tdata := dx |} 2)
    by (simpl; lia).
  cbn [mbind option_bind].
  unfold broadcast2. cbn [tshape transpose].
  change (reverse [N; F]) with [F; N].
  change (take 2 [M; F] ++ 1%nat :: drop 2 [M; F]) with [M; F; 1%nat].
  rewrite broadcast_shapes_rows. cbn [mbind option_bind].
  rewrite reduce_sum_Some by (simpl; lia). cbn [mbind option_bind].
  cbn [tshape tmap].
  change (take 1 [M; F; N] ++ drop 2 [M; F; N]) with [M; N].
  change (reverse [M; N]) with [N; M].
  rewrite reshape_Some by (simpl; lia). cbn [mbind option_bind].
  cbn [tshape].
  rewrite (matmul_Some _ _ (length sigmas) 1 (num_entries [N; M])) by reflexivity.
  cbn [mbind option_bind].
  rewrite reduce_sum_Some by (simpl; lia). cbn [mbind option_bind].
  cbn [tshape tmap].
  rewrite reshape_Some by (simpl; lia). cbn [mbind option_bind].
  eexists. split; [reflexivity |]. split; [reflexivity |].
  intros n m Hn Hm. cbn [tdata tshape tmap transpose constant].
  unfold rbf_sum. rewrite <- sum_upto_nth.
  change (nth 0 [length sigmas; num_entries [N; M]] 0%nat) with (length sigmas).
  apply sum_upto_ext. intros k Hk. f_equal. f_equal.
  cbn [take drop app unravel ravel num_entries foldr nth hd reverse rev_append
       operand_index zip_with length Nat.sub].
  rewrite sum_upto_1.
  destruct (row_major_index N M n m Hm) as [Hrow Hcol].
  cbv zeta in Hrow, Hcol. rewrite Hrow, Hcol.
  rewrite !(in_range_index M m Hm), !(in_range_index N n Hn).
  unfold sqdist. cbn [tdata].
  transitivity (1 / (2 * nth k sigmas 0) *
                sum_upto F (fun f => (dx [m; f] - dy [n; f]) * (dx [m; f] - dy [n; f]))).
  - f_equal. apply sum_upto_ext. intros f Hf.
    by rewrite !(in_range_index F f Hf).
  - unfold Rdiv. ring.
Qed.

(** X15. On samples [x] of shape (M, F) and [y] of shape (N, F) the kernel
    matrix is defined and has shape (N, M), the rows indexed by the samples
    of [y]; its entry for [y_n] and [x_m] is the sum over the widths
    [sigma] of [exp(- |x_m - y_n|^2 / (2 sigma))]. *)
Theorem gaussian_kernel_entries (x y : tensor) (sigmas : list R) (M N F : nat) :
  tshape x = [M; F] -> tshape y = [N; F] ->
  exists K, _gaussian_kernel_matrix x y sigmas = Some K /\
            tshape K = [N; M] /\
            forall n m, (n < N)%nat -> (m < M)%nat ->
              tdata K [n; m] = rbf_sum sigmas (sqdist F x y m n).
Proof. apply gaussian_kernel_defined. Qed.

(** ** The mean of a kernel matrix *)

Lemma reduce_mean_matrix (K : tensor) (N M : nat) :
  tshape K = [N; M] ->
  reduce_mean K =
  sum_upto N (fun n => sum_upto M (fun m => tdata K [n; m])) / INR (N * M).
Proof.
  intros HK. unfold reduce_mean. rewrite HK.
  cbn [num_entries foldr unravel]. rewrite Nat.mul_1_r.
  rewrite <- (sum_upto_rows N M (fun n m => tdata K [n; m])).
  f_equal. apply sum_upto_ext. intros k _. by rewrite Nat.div_1_r.
Qed.

Lemma sqdist_sym (F : nat) (x y : tensor) (m n : nat) :
  sqdist F x y m n = sqdist F y x n m.
Proof. unfold sqdist. apply sum_upto_ext. intros f _. ring. Qed.

Lemma sqdist_self (F : nat) (x : tensor) (m : nat) : sqdist F x x m m = 0.
Proof.
  unfold sqdist. induction F as [| F IH]; [reflexivity |].
  rewrite sum_upto_S, IH. ring.
Qed.

Lemma kernel_mean_sym (x y Kxy Kyx : tensor) (sigmas : list R) (M N F : nat) :
  tshape x = [M; F] -> tshape y = [N; F] ->
  _gaussian_kernel_matrix x y sigmas = Some Kxy ->
  _gaussian_kernel_matrix y x sigmas = Some Kyx ->
  reduce_mean Kxy = reduce_mean Kyx.
Proof.
  intros Hx Hy Hxy Hyx.
  destruct (gaussian_kernel_defined x y sigmas M N F Hx Hy) as (K & HK & Hsh & Hd).
  rewrite Hxy in HK. injection HK as <-.
  destruct (gaussian_kernel_defined y x sigmas N M F Hy Hx) as (K' & HK' & Hsh' & Hd').
  rewrite Hyx in HK'. injection HK' as <-.
  rewrite (reduce_mean_matrix Kxy N M Hsh), (reduce_mean_matrix Kyx M N Hsh').
  rewrite (Nat.mul_comm N M). f_equal.
  rewrite sum_upto_swap. apply sum_upto_ext. intros m Hm.
  apply sum_upto_ext. intros n Hn.
  rewrite Hd, Hd' by done. by rewrite sqdist_sym.
Qed.

Lemma mmd_kernel_defined (x y : tensor) (sigmas : list R) (M N F : nat) :
  tshape x = [M; F] -> tshape y = [N; F] ->
  exists Kxx Kyy Kxy,
    _gaussian_kernel_matrix x x sigmas = Some Kxx /\
    _gaussian_kernel_matrix y y sigmas = Some Kyy /\
    _gaussian_kernel_matrix x y sigmas = Some Kxy /\
    _mmd_kernel x y (fun x y => _gaussian_kernel_matrix x y sigmas) =
      Some (reduce_mean Kxx + reduce_mean Kyy - 2 * reduce_mean Kxy).
Proof.
  intros Hx Hy.
  destruct (gaussian_kernel_defined x x sigmas M M F Hx Hx) as (Kxx & Hxx & _).
  destruct (gaussian_kernel_defined y y sigmas N N F Hy Hy) as (Kyy & Hyy & _).
  destruct (gaussian_kernel_defined x y sigmas M N F Hx Hy) as (Kxy & Hxy & _).
  exists Kxx, Kyy, Kxy. repeat split; try done.
  unfold _mmd_kernel. by rewrite Hxx, Hyy, Hxy.
Qed.

(** X16. The discrepancy is symmetric in its two samples (samples that are
    not empty; over the reals, where the order of a sum does not matter). *)
Theorem maximum_mean_discrepancy_sym (x y : tensor) (weight minimum : R)
    (M N F : nat) :
  tshape x = [M; F] -> tshape y = [N; F] -> (1 <= M)%nat -> (1 <= N)%nat ->
  maximum_mean_discrepancy x y weight minimum =
  maximum_mean_discrepancy y x weight minimum.
Proof.
  intros Hx Hy _ _. unfold maximum_mean_discrepancy.
  destruct (mmd_kernel_defined x y sigmas M N F Hx Hy)
    as (Kxx & Kyy & Kxy & Hxx & Hyy & Hxy & ->).
  destruct (mmd_kernel_defined y x sigmas N M F Hy Hx)
    as (Kyy' & Kxx' & Kyx & Hyy' & Hxx' & Hyx & ->).
  rewrite Hyy in Hyy'. injection Hyy' as <-.
  rewrite Hxx in Hxx'. injection Hxx' as <-.
  cbn [mbind option_bind]. f_equal. f_equal. f_equal.
  rewrite (kernel_mean_sym x y Kxy Kyx sigmas M N F) by done. ring.
Qed.

(** X17. On samples of shapes (M, F) and (N, F) that are not empty the
    discrepancy is defined; it is not below [minimum * weight] for a weight that is not
    negative, so with the default arguments it is never negative; and of a
    sample with itself it is [max(minimum, 0) * weight], zero by default. *)
Theorem maximum_mean_discrepancy_clamped (x y : tensor) (weight minimum : R)
    (M N F : nat) :
  tshape x = [M; F] -> tshape y = [N; F] -> (1 <= M)%nat -> (1 <= N)%nat ->
  0 <= weight ->
  (exists r, maximum_mean_discrepancy x y weight minimum = Some r /\
             minimum * weight <= r) /\
  maximum_mean_discrepancy x x weight minimum = Some (Rmax minimum 0 * weight) /\
  maximum_mean_discrepancy x x 1 0 = Some 0.
Proof.
  intros Hx Hy _ _ Hw.
  assert (Hself : forall w mn,
            maximum_mean_discrepancy x x w mn = Some (Rmax mn 0 * w)).
  { intros w mn. unfold maximum_mean_discrepancy.
    destruct (mmd_kernel_defined x x sigmas M M F Hx Hx)
      as (K1 & K2 & K3 & H1 & H2 & H3 & ->).
    rewrite H1 in H2, H3. injection H2 as <-. injection H3 as <-.
    cbn [mbind option_bind]. do 3 f_equal. ring. }
  split; [| split].
  - unfold maximum_mean_discrepancy.
    destruct (mmd_kernel_defined x y sigmas M N F Hx Hy)
      as (Kxx & Kyy & Kxy & _ & _ & _ & ->).
    cbn [mbind option_bind]. eexists. split; [reflexivity |].
    apply Rmult_le_compat_r; [exact Hw | apply Rmax_l].
  - apply Hself.
  - rewrite Hself. f_equal. rewrite Rmax_left by lra. ring.
Qed.

(** ** Two small samples *)

(** One sample at 0 and two samples at 0 and 1, of one feature. *)
Definition sample_x : tensor := {| tshape := [1%nat; 1%nat]; tdata := fun _ => 0 |}.
Definition sample_y : tensor :=
  {| tshape := [2%nat; 1%nat]; tdata := fun ix => INR (hd 0%nat ix) |}.

Lemma gaussian_kernel_entries_witness :
  exists K, _gaussian_kernel_matrix sample_x sample_y sigmas = Some K /\
            tshape K = [2%nat; 1%nat] /\
            forall n m, (n < 2)%nat -> (m < 1)%nat ->
              tdata K [n; m] = rbf_sum sigmas (sqdist 1 sample_x sample_y m n).
Proof.
  apply (gaussian_kernel_entries sample_x sample_y sigmas 1 2 1); reflexivity.
Defined.

Lemma maximum_mean_discrepancy_sym_witness :
  maximum_mean_discrepancy sample_x sample_y 1 0 =
  maximum_mean_discrepancy sample_y sample_x 1 0.
Proof.
  apply (maximum_mean_discrepancy_sym sample_x sample_y 1 0 1 2 1);
    [reflexivity | reflexivity | lia | lia].
Defined.

Lemma maximum_mean_discrepancy_clamped_witness :
  (exists r, maximum_mean_discrepancy sample_x sample_y 1 0 = Some r /\
             0 * 1 <= r) /\
  maximum_mean_discrepancy sample_x sample_x 1 0 = Some (Rmax 0 0 * 1) /\
  maximum_mean_discrepancy sample_x sample_x 1 0 = Some 0.
Proof.
  apply (maximum_mean_discrepancy_clamped sample_x sample_y 1 0 1 2 1);
    [reflexivity | reflexivity | lia | lia | lra].
Defined.

(** With one width [sigma = 1/2] the kernel between 0 and 1 is [exp(-1)]. *)
Example gaussian_kernel_value :
  exists K, _gaussian_kernel_matrix sample_x sample_y [/ 2] = Some K /\
            tdata K [1%nat; 0%nat] = exp (- 1).
Proof.
  destruct (gaussian_kernel_defined sample_x sample_y [/ 2] 1 2 1)
    as (K & HK & _ & Hd); [reflexivity | reflexivity |].
  exists K. split; [exact HK |]. rewrite Hd by lia.
  unfold rbf_sum, sqdist, sum_upto, vsum. simpl. rewrite Rplus_0_r.
  f_equal. field.
Qed.

End MMD.
